(** * Greedy team selection: scorer and selector of [poke.py] and [poke_ui.py]

    A shallow embedding of [team_score] and [greedy_team] as they are written
    in the command-line script ([poke.py], module [Poke]) and in the Qt front
    end ([poke_ui.py], module [PokeUi]), over a small model of the pandas
    operations the two functions use.

    Modelling conventions.
    - A [DataFrame] is the list of its rows in iteration order, each row
      paired with its index label.  [load_data] ends in
      [reset_index(drop=True)], so the pools both programs pass to
      [greedy_team] carry the labels 0, 1, ..., n-1: [reset_index].
    - The columns are those of the data set: "Type 2" is [None] where the
      CSV cell is empty (pandas stores NaN there and [dropna] removes it).
    - "Total" is an int64 column: its sum is taken in 64 bits and wraps
      around ([wrap64]).  Adding the bonus, a Python integer, to that sum
      first converts it to int64, which raises [OverflowError] when it does
      not fit, and then adds with wrap-around ([add_pyint]).  Python's own
      integers (k, the bonus, the number of categories) are unbounded.
    - A Python exception ends the computation: [Raise].  The [while] loop
      is run with fuel; [OutOfFuel] is a third outcome, distinct from both,
      and is shown never to occur.
    - Reading the CSV file is outside the model: [load_data], the script of
      [poke.py] and [_run_optimizer] take the frame [pd.read_csv] returned
      (or, for [_run_optimizer], the text of its exception) as an argument.
    - The Qt table is its row count and its items by row and column;
      message boxes are returned, not shown. *)

From stdpp Require Import base gmap sets list strings sorting pretty.
From Stdlib Require Import ZArith.

(** ** Rows and frames *)

Record Row := mkRow {
  Name : string;
  Type_1 : string;
  Type_2 : option string;
  Total : Z;
  Generation : Z;
  Legendary : bool
}.

Abbreviation DataFrame := (list (nat * Row)).

(** [df.reset_index(drop=True)]: the rows relabelled 0, 1, 2, ... *)
Definition reset_index (rows : list Row) : DataFrame := imap pair rows.

(** ** Outcomes of a Python computation *)

Inductive exn := KeyError | ValueError | OverflowError.

Inductive outcome (A : Type) :=
| Return (a : A)
| Raise (e : exn)
| OutOfFuel.
Arguments Return {A} a.
Arguments Raise {A} e.
Arguments OutOfFuel {A}.

(** Sequencing: an exception, or running out of fuel, ends the run. *)
#[global] Instance outcome_bind : MBind outcome := λ A B f m,
  match m with
  | Return a => f a
  | Raise e => Raise e
  | OutOfFuel => OutOfFuel
  end.

(** ** The pandas operations used by the selector *)

(** The rows of [df] labelled [l], in frame order. *)
Definition rows_with (df : DataFrame) (l : nat) : DataFrame :=
  filter (λ p, p.1 = l) df.

(** [df.loc[labels]]: for each label in turn the rows that carry it; a label
    the frame does not have is a [KeyError]. *)
Fixpoint loc (df : DataFrame) (labels : list nat) : outcome DataFrame :=
  match labels with
  | [] => Return []
  | l :: ls =>
      match rows_with df l with
      | [] => Raise KeyError
      | rs => rest ← loc df ls; Return (rs ++ rest)
      end
  end.

(** [df.drop(l)]: the frame without the rows labelled [l]; [KeyError] when
    there is none. *)
Definition drop_label (df : DataFrame) (l : nat) : outcome DataFrame :=
  if decide (l ∈ df.*1) then Return (filter (λ p, p.1 ≠ l) df)
  else Raise KeyError.

(** A header without data gives [read_csv] nothing to infer the column
    types from: every column is of dtype object.  The negation of the empty
    "Legendary" column is then no boolean mask, [df[~df["Legendary"]]]
    selects columns, none of them, and the frame [load_data] returns has
    neither rows nor columns. *)
Definition loses_columns (csv : DataFrame) (allow_legendary : bool) : bool :=
  match csv with
  | [] => negb allow_legendary
  | _ :: _ => false
  end.

(** ** 64-bit integers *)

Definition in_int64 (z : Z) : Prop := (- 2 ^ 63 ≤ z < 2 ^ 63)%Z.

#[global] Instance in_int64_dec (z : Z) : Decision (in_int64 z).
Proof. unfold in_int64. apply _. Defined.

(** The int64 value a result wraps around to. *)
Definition wrap64 (z : Z) : Z := ((z + 2 ^ 63) `mod` 2 ^ 64 - 2 ^ 63)%Z.

(** int64 addition *)
Definition int64_add (x y : Z) : Z := wrap64 (x + y).

(** [series.sum()] of an int64 column *)
Definition sum (zs : list Z) : Z := foldl int64_add 0%Z zs.

(** [x + n] for an int64 [x] and a Python integer [n] *)
Definition add_pyint (x n : Z) : outcome Z :=
  if decide (in_int64 n) then Return (int64_add x n)
  else Raise OverflowError.

(** A score as the selection loop compares it: [-float("inf")] or an
    integer. *)
Inductive ext := NegInf | Int (z : Z).

(** [delta > best] *)
Definition gt (delta : Z) (best : ext) : bool :=
  match best with
  | NegInf => true
  | Int b => bool_decide (b < delta)%Z
  end.

(** [series.str.contains(pat)] for a pattern without metacharacters: [pat]
    occurs somewhere in the string. *)
Fixpoint contains (pat s : string) : bool :=
  String.prefix pat s ||
  match s with
  | EmptyString => false
  | String _ s' => contains pat s'
  end.

(** [series.str.contains("Mega|Primal", regex=True)]: one of the two
    alternatives occurs. *)
Definition contains_Mega_or_Primal (s : string) : bool :=
  contains "Mega" s || contains "Primal" s.

(** ** poke.py *)

Module Poke.

Definition MAX_GENERATION : Z := 6.
Definition ALLOW_MEGA : bool := false.
Definition ALLOW_LEGENDARY : bool := false.
Definition TYPE_BONUS : Z := 20.
Definition TEAM_SIZE : Z := 6.

(** [csv] is the frame [pd.read_csv(csv_path)] returned: three selections
    by boolean mask, then [reset_index(drop=True)]. *)
Definition load_data (csv : DataFrame) (max_gen : Z)
    (allow_mega allow_legendary : bool) : DataFrame :=
  let df := csv in
  let df := filter (λ p, (Generation p.2 ≤ max_gen)%Z) df in
  let df :=
    if negb allow_mega
    then filter (λ p, contains_Mega_or_Primal (Name p.2) = false) df
    else df in
  let df :=
    if negb allow_legendary
    then filter (λ p, Legendary p.2 = false) df
    else df in
  reset_index df.*2.

Definition team_score (team : DataFrame) (type_bonus : Z) : outcome Z :=
  let stat_sum := sum (Total <$> team.*2) in
  let types : gset string :=
    list_to_set (Type_1 <$> team.*2) ∪ list_to_set (omap Type_2 team.*2) in
  add_pyint stat_sum (type_bonus * Z.of_nat (size types)).

(** The [for idx, row in remaining.iterrows()] loop, from the current
    values of [best_idx] and [best_delta]. *)
Fixpoint scan (df : DataFrame) (type_bonus : Z) (chosen_idx : list nat)
    (remaining : DataFrame) (best_idx : option nat) (best_delta : ext)
    : outcome (option nat * ext) :=
  match remaining with
  | [] => Return (best_idx, best_delta)
  | (idx, row) :: rest =>
      new_team ← loc df (chosen_idx ++ [idx]);
      delta ← team_score new_team type_bonus;
      if gt delta best_delta
      then scan df type_bonus chosen_idx rest (Some idx) (Int delta)
      else scan df type_bonus chosen_idx rest best_idx best_delta
  end.

(** [while len(chosen_idx) < k: ...]; the last component is the value of
    [best_delta] when the loop is left ([None]: never assigned).  With
    nothing left to scan [best_idx] is still [None]: it is appended and
    [remaining.drop(None)] raises [ValueError]. *)
Fixpoint while (fuel : nat) (df : DataFrame) (k type_bonus : Z)
    (chosen_idx : list nat) (remaining : DataFrame) (last : option ext)
    : outcome (list nat * option ext) :=
  match fuel with
  | O => OutOfFuel
  | S fuel' =>
      if bool_decide (Z.of_nat (length chosen_idx) < k)%Z then
        '(best_idx, best_delta) ←
          scan df type_bonus chosen_idx remaining None NegInf;
        match best_idx with
        | None => Raise ValueError
        | Some i =>
            remaining' ← drop_label remaining i;
            while fuel' df k type_bonus (chosen_idx ++ [i]) remaining'
              (Some best_delta)
        end
      else Return (chosen_idx, last)
  end.

(** The loop from its initial state. *)
Definition select (df : DataFrame) (k type_bonus : Z)
    : outcome (list nat * option ext) :=
  while (S (Z.to_nat k)) df k type_bonus [] df None.

Definition greedy_team (df : DataFrame) (k type_bonus : Z)
    : outcome DataFrame :=
  '(chosen_idx, _) ← select df k type_bonus;
  loc df chosen_idx.

(** The values of [chosen_idx], [remaining] and [best_delta] each time
    the loop condition is evaluated: initially, and after every
    iteration that ran to its end. *)
Inductive head (df : DataFrame) (k type_bonus : Z)
    : list nat → DataFrame → option ext → Prop :=
| head_init : head df k type_bonus [] df None
| head_next chosen_idx remaining last i best_delta remaining' :
    head df k type_bonus chosen_idx remaining last →
    (Z.of_nat (length chosen_idx) < k)%Z →
    scan df type_bonus chosen_idx remaining None NegInf
      = Return (Some i, best_delta) →
    drop_label remaining i = Return remaining' →
    head df k type_bonus (chosen_idx ++ [i]) remaining' (Some best_delta).

(** The parsed command line. *)
Record args := mkArgs {
  allow_mega : bool;
  allow_legendary : bool;
  type_bonus : Z;
  team_size : Z
}.

(** The script below the definitions, on the frame read from [args.csv]:
    the score and the team it prints.  On a team without columns
    [team["Total"]] is a [KeyError]. *)
Definition main (csv : DataFrame) (a : args) : outcome (Z * DataFrame) :=
  let df := load_data csv MAX_GENERATION (allow_mega a) (allow_legendary a) in
  team ← greedy_team df (team_size a) (type_bonus a);
  score ←
    (if loses_columns csv (allow_legendary a) then Raise KeyError
     else team_score team (type_bonus a));
  Return (score, team).

End Poke.

(** ** poke_ui.py *)

Module PokeUi.

Definition DEFAULT_CSV : string := "Pokemon.csv".
Definition MAX_DATASET_GEN : Z := 6.
Definition TEAM_SIZE_MAX : Z := 6.
Definition TYPE_BONUS_DEFAULT : Z := 20.

(** [csv] is the frame [pd.read_csv(csv_path)] returned: three selections
    by boolean mask, then [reset_index(drop=True)]. *)
Definition load_data (csv : DataFrame) (max_gen : Z)
    (allow_mega allow_legendary : bool) : DataFrame :=
  let df := csv in
  let df := filter (λ p, (Generation p.2 ≤ max_gen)%Z) df in
  let df :=
    if negb allow_mega
    then filter (λ p, contains_Mega_or_Primal (Name p.2) = false) df
    else df in
  let df :=
    if negb allow_legendary
    then filter (λ p, Legendary p.2 = false) df
    else df in
  reset_index df.*2.

Definition team_score (team : DataFrame) (type_bonus : Z) : outcome Z :=
  let base_power := sum (Total <$> team.*2) in
  let unique_types : gset string :=
    list_to_set (Type_1 <$> team.*2) ∪ list_to_set (omap Type_2 team.*2) in
  add_pyint base_power (type_bonus * Z.of_nat (size unique_types)).

Fixpoint scan (df : DataFrame) (type_bonus : Z) (chosen_idx : list nat)
    (remaining : DataFrame) (best_idx : option nat) (best_score : ext)
    : outcome (option nat * ext) :=
  match remaining with
  | [] => Return (best_idx, best_score)
  | (idx, _) :: rest =>
      candidate_team ← loc df (chosen_idx ++ [idx]);
      score ← team_score candidate_team type_bonus;
      if gt score best_score
      then scan df type_bonus chosen_idx rest (Some idx) (Int score)
      else scan df type_bonus chosen_idx rest best_idx best_score
  end.

(** [remaining.empty] *)
Definition empty (df : DataFrame) : bool :=
  match df with [] => true | _ => false end.

(** [while len(chosen_idx) < k and not remaining.empty: ...], with the
    [break] on [best_idx is None]. *)
Fixpoint while (fuel : nat) (df : DataFrame) (k type_bonus : Z)
    (chosen_idx : list nat) (remaining : DataFrame) (last : option ext)
    : outcome (list nat * option ext) :=
  match fuel with
  | O => OutOfFuel
  | S fuel' =>
      if bool_decide (Z.of_nat (length chosen_idx) < k)%Z
         && negb (empty remaining) then
        '(best_idx, best_score) ←
          scan df type_bonus chosen_idx remaining None NegInf;
        match best_idx with
        | None => Return (chosen_idx, Some best_score)
        | Some i =>
            remaining' ← drop_label remaining i;
            while fuel' df k type_bonus (chosen_idx ++ [i]) remaining'
              (Some best_score)
        end
      else Return (chosen_idx, last)
  end.

Definition select (df : DataFrame) (k type_bonus : Z)
    : outcome (list nat * option ext) :=
  while (S (Z.to_nat k)) df k type_bonus [] df None.

Definition greedy_team (df : DataFrame) (k type_bonus : Z)
    : outcome DataFrame :=
  '(chosen_idx, _) ← select df k type_bonus;
  loc df chosen_idx.

(** The values of [chosen_idx], [remaining] and [best_score] each time
    the loop condition is evaluated. *)
Inductive head (df : DataFrame) (k type_bonus : Z)
    : list nat → DataFrame → option ext → Prop :=
| head_init : head df k type_bonus [] df None
| head_next chosen_idx remaining last i best_score remaining' :
    head df k type_bonus chosen_idx remaining last →
    (Z.of_nat (length chosen_idx) < k)%Z →
    empty remaining = false →
    scan df type_bonus chosen_idx remaining None NegInf
      = Return (Some i, best_score) →
    drop_label remaining i = Return remaining' →
    head df k type_bonus (chosen_idx ++ [i]) remaining' (Some best_score).

(** The results table: its row count and its items by (row, column).  The
    column count is the 4 that [_build_ui] sets. *)
Record Table := mkTable {
  rowCount : nat;
  items : gmap (nat * nat) string
}.

Definition columnCount : nat := 4.

(** [table.setRowCount(n)]: the items of the rows given up are discarded. *)
Definition setRowCount (n : nat) (t : Table) : Table :=
  mkTable n (filter (λ kv, kv.1.1 < n) (items t)).

(** [table.setItem(row, column, QTableWidgetItem(text))]; outside the table
    nothing is set. *)
Definition setItem (row column : nat) (text : string) (t : Table) : Table :=
  if decide (row < rowCount t ∧ column < columnCount)
  then mkTable (rowCount t) (<[(row, column) := text]> (items t))
  else t.

(** [str(mon["Type 2"])]: the missing value prints as nan. *)
Definition str_Type_2 (mon : Row) : string :=
  match Type_2 mon with
  | Some t => t
  | None => "nan"
  end.

(** One pass of the loop of [_populate_table]. *)
Definition populate_row (t : Table) (row_idx : nat) (mon : Row) : Table :=
  let t := setItem row_idx 0 (Name mon) t in
  let t := setItem row_idx 1 (Type_1 mon) t in
  let t := setItem row_idx 2 (str_Type_2 mon) t in
  setItem row_idx 3 (pretty (Total mon)) t.

Fixpoint populate_rows (t : Table) (row_idx : nat) (rows : list Row) : Table :=
  match rows with
  | [] => t
  | mon :: rest => populate_rows (populate_row t row_idx mon) (S row_idx) rest
  end.

Definition populate_table (t : Table) (team : DataFrame) : Table :=
  let t := setRowCount (length team) t in
  populate_rows t 0 team.*2.

(** The widgets [_run_optimizer] reads and those it writes. *)
Record controls := mkControls {
  combo_gen : Z;
  chk_mega : bool;
  chk_legendary : bool;
  spin_team : Z;
  spin_bonus : Z
}.

Record window := mkWindow {
  table : Table;
  lbl_score : string
}.

Inductive message :=
| warning (title text : string)
| critical (title text : string)
| information (title text : string).

(** [_run_optimizer]: [csv_exists] is [csv_path.exists()], [read] what
    [pd.read_csv] does, the text of its exception or the frame.  The result
    is the window afterwards and the message box shown, if any. *)
Definition run_optimizer (w : window) (c : controls) (csv_exists : bool)
    (read : string + DataFrame) : outcome (window * option message) :=
  if negb csv_exists then
    Return (w, Some (warning "Dataset not found"
      ("Cannot locate " +:+ DEFAULT_CSV +:+ " in the working directory.")))
  else
    match read with
    | inl exc => Return (w, Some (critical "Error reading CSV" exc))
    | inr csv =>
        let df := load_data csv (combo_gen c) (chk_mega c) (chk_legendary c) in
        if empty df then
          Return (w, Some (information "No Pokémon"
            "Dataset is empty after applying filters."))
        else
          team ← greedy_team df (spin_team c) (spin_bonus c);
          score ← team_score team (spin_bonus c);
          Return (mkWindow (populate_table (table w) team)
                    ("Score: " +:+ pretty score), None)
    end.

End PokeUi.

(** ** The scenario of the specification *)

Definition mon (name t1 : string) (t2 : option string) (total : Z) : Row :=
  mkRow name t1 t2 total 1 false.

Definition A : Row := mon "A" "Fire" None 300.
Definition B : Row := mon "B" "Water" None 250.
Definition C : Row := mon "C" "Fire" (Some "Flying") 400.

(** Two entities whose fitness values add up to 2^63. *)
Definition P : Row := mon "P" "Fire" None (2 ^ 62).
Definition Q : Row := mon "Q" "Fire" None (2 ^ 62).


(** ** Definitions used to state the properties *)

(** The rows of a pool at the given labels, in the order of the labels. *)
Definition select_rows (pool : list Row) (labels : list nat) : DataFrame :=
  omap (λ i, pair i <$> pool !! i) labels.

(** The categories of a subset, entity by entity: the primary one, then the
    secondary one when the entity has it. *)
Definition categories (team : DataFrame) : list string :=
  r ← team.*2; Type_1 r :: option_list (Type_2 r).

(** The fitness values of a subset added up, as integers. *)
Fixpoint fitness_total (team : DataFrame) : Z :=
  match team with
  | [] => 0
  | p :: rest => Total p.2 + fitness_total rest
  end.

(** The number of distinct categories of a subset. *)
Definition distinct_categories (team : DataFrame) : nat :=
  length (remove_dups (categories team)).

(** The score in the words of the specification: the fitness values summed,
    plus the bonus for each distinct category. *)
Definition spec_score (team : DataFrame) (type_bonus : Z) : Z :=
  (fitness_total team
   + type_bonus * Z.of_nat (distinct_categories team))%Z.

(** The score of a subset is computed without overflow: the bonus term and
    the score itself are int64 values. *)
Definition fits (team : DataFrame) (type_bonus : Z) : Prop :=
  in_int64 (type_bonus * Z.of_nat (distinct_categories team)) ∧
  in_int64 (spec_score team type_bonus).

(** The bonus for two categories of every entity of a pool of [n] entities
    is an int64 value: no subset of the pool has a bonus term out of
    range. *)
Definition bonus_fits (type_bonus : Z) (n : nat) : Prop :=
  in_int64 (type_bonus * Z.of_nat (2 * n)).

(** No score of a subset of the pool overflows: nothing is negative and
    the whole pool with two categories for every entity stays below
    2^63. *)
Definition no_overflow (pool : list Row) (type_bonus : Z) : Prop :=
  Forall (λ x, 0 ≤ Total x)%Z pool ∧
  (0 ≤ type_bonus)%Z ∧
  (fitness_total (reset_index pool)
   + type_bonus * Z.of_nat (2 * length pool) < 2 ^ 63)%Z.

(** The score of the team so far with the entity at position [j] of the
    pool appended: what the selection loop computes for a candidate. *)
Definition candidate_score (pool : list Row) (type_bonus : Z)
    (chosen_idx : list nat) (j : nat) : outcome Z :=
  Poke.team_score (select_rows pool (chosen_idx ++ [j])) type_bonus.

(** How [chosen_idx] and [remaining] stand to the pool at the loop head:
    the chosen labels are distinct positions of the pool, and [remaining]
    holds the other rows of the pool, in pool order. *)
Definition consistent (pool : list Row) (chosen_idx : list nat)
    (remaining : DataFrame) : Prop :=
  NoDup chosen_idx ∧
  Forall (λ i, i < length pool) chosen_idx ∧
  remaining = filter (λ p, p.1 ∉ chosen_idx) (reset_index pool).

(** [pat] occurs in [s]. *)
Definition occurs_in (pat s : string) : Prop :=
  ∃ pre post, s = pre +:+ pat +:+ post.

(** The rows [load_data] keeps. *)
Definition kept (max_gen : Z) (allow_mega allow_legendary : bool)
    (x : Row) : Prop :=
  (Generation x ≤ max_gen)%Z ∧
  (allow_mega = false →
   ¬ occurs_in "Mega" (Name x) ∧ ¬ occurs_in "Primal" (Name x)) ∧
  (allow_legendary = false → Legendary x = false).

(** What the results table is to show of an entity in each column. *)
Definition display (mon : Row) (column : nat) : option string :=
  match column with
  | 0 => Some (Name mon)
  | 1 => Some (Type_1 mon)
  | 2 => Some (from_option id "nan" (Type_2 mon))
  | 3 => Some (pretty (Total mon))
  | _ => None
  end.

(** The same test as [load_data] computes it. *)
Definition keep (max_gen : Z) (allow_mega allow_legendary : bool)
    (x : Row) : Prop :=
  (Generation x ≤ max_gen)%Z ∧
  (allow_mega = false → contains_Mega_or_Primal (Name x) = false) ∧
  (allow_legendary = false → Legendary x = false).

#[global] Instance keep_dec max_gen allow_mega allow_legendary x :
  Decision (keep max_gen allow_mega allow_legendary x).
Proof. unfold keep. apply _. Defined.

(** The categories of one entity, and how many of them a team lacks. *)
Definition row_categories (x : Row) : list string :=
  Type_1 x :: option_list (Type_2 x).

Definition new_categories (team : DataFrame) (x : Row) : nat :=
  length (filter (.∉ categories team) (remove_dups (row_categories x))).

(** The fitness value of the entity at position [i] of the pool. *)
Definition fitness (pool : list Row) (i : nat) : Z :=
  from_option Total 0%Z (pool !! i).

(** [i] comes before [j] when the pool is ordered by descending fitness,
    equal values in pool order. *)
Definition outranks (pool : list Row) (i j : nat) : Prop :=
  (fitness pool j < fitness pool i)%Z ∨
  (fitness pool i = fitness pool j ∧ i ≤ j).

#[global] Instance outranks_dec (pool : list Row) : RelDecision (outranks pool).
Proof. intros i j. unfold outranks. apply _. Defined.

(** The first min(k, |pool|) entities of the pool in that order. *)
Definition top_k (pool : list Row) (k : Z) : DataFrame :=
  select_rows pool
    (take (Z.to_nat k `min` length pool)
       (merge_sort (outranks pool) (seq 0 (length pool)))).

(** ** Facts about the frame operations *)

Lemma imap_pair_labels (rows : list Row) (o : nat) :
  (imap (λ j, pair (o + j)) rows).*1 = seq o (length rows).
Proof.
  revert o. induction rows as [|x rows IH]; intros o; simpl; [done|].
  f_equal; [lia|]. rewrite <- (IH (S o)). f_equal.
  apply imap_ext. intros j y _. simpl. f_equal. lia.
Qed.

Lemma reset_index_labels (pool : list Row) :
  (reset_index pool).*1 = seq 0 (length pool).
Proof. apply (imap_pair_labels pool 0). Qed.

Lemma elem_of_reset_index (pool : list Row) (i : nat) (x : Row) :
  (i, x) ∈ reset_index pool ↔ pool !! i = Some x.
Proof.
  unfold reset_index. rewrite elem_of_lookup_imap. split.
  - intros (j & y & Heq & Hj). by simplify_eq.
  - intros Hi. by exists i, x.
Qed.

Lemma length_reset_index (pool : list Row) :
  length (reset_index pool) = length pool.
Proof. apply length_imap. Qed.

Lemma rows_with_absent (df : DataFrame) (i : nat) :
  i ∉ df.*1 → rows_with df i = [].
Proof.
  unfold rows_with. induction df as [|[j y] df IH]; simpl; intros Hi; [done|].
  apply not_elem_of_cons in Hi as [Hne Hi].
  rewrite filter_cons_False by (simpl; congruence). by apply IH.
Qed.

Lemma rows_with_unique (df : DataFrame) (i : nat) (x : Row) :
  NoDup df.*1 → (i, x) ∈ df → rows_with df i = [(i, x)].
Proof.
  unfold rows_with. induction df as [|[j y] df IH]; simpl; intros Hnd Hin.
  - by apply elem_of_nil in Hin.
  - apply NoDup_cons in Hnd as [Hj Hnd].
    apply elem_of_cons in Hin as [Heq|Hin].
    + simplify_eq. rewrite filter_cons_True by done. f_equal.
      by apply rows_with_absent.
    + rewrite filter_cons_False; [by apply IH|].
      simpl. intros ->. apply Hj, list_elem_of_fmap. by exists (i, x).
Qed.

Lemma rows_with_reset_index (pool : list Row) (i : nat) (x : Row) :
  pool !! i = Some x → rows_with (reset_index pool) i = [(i, x)].
Proof.
  intros Hi. apply rows_with_unique.
  - rewrite reset_index_labels. apply NoDup_seq.
  - by apply elem_of_reset_index.
Qed.

Lemma loc_reset_index (pool : list Row) (labels : list nat) :
  Forall (λ i, i < length pool) labels →
  loc (reset_index pool) labels = Return (select_rows pool labels).
Proof.
  induction 1 as [|i ls Hi _ IH]; [done|].
  apply lookup_lt_is_Some_2 in Hi as [x Hx].
  simpl. rewrite (rows_with_reset_index _ _ _ Hx), IH.
  unfold select_rows. simpl. by rewrite Hx.
Qed.

Lemma length_select_rows (pool : list Row) (labels : list nat) :
  Forall (λ i, i < length pool) labels →
  length (select_rows pool labels) = length labels.
Proof.
  induction 1 as [|i ls Hi _ IH]; [done|].
  apply lookup_lt_is_Some_2 in Hi as [x Hx].
  unfold select_rows in *. simpl. rewrite Hx. simpl. f_equal. exact IH.
Qed.

(** ** 64-bit arithmetic *)

Lemma wrap64_in_int64 (z : Z) : in_int64 (wrap64 z).
Proof.
  unfold in_int64, wrap64.
  pose proof (Z.mod_pos_bound (z + 2 ^ 63) (2 ^ 64)). lia.
Qed.

Lemma wrap64_id (z : Z) : in_int64 z → wrap64 z = z.
Proof.
  unfold in_int64, wrap64. intros Hz.
  rewrite Z.mod_small by lia. lia.
Qed.

Lemma wrap64_id_inv (z : Z) : wrap64 z = z → in_int64 z.
Proof. intros <-. apply wrap64_in_int64. Qed.

Lemma wrap64_add_l (x y : Z) : wrap64 (wrap64 x + y) = wrap64 (x + y).
Proof.
  unfold wrap64. f_equal.
  replace ((x + 2 ^ 63) `mod` 2 ^ 64 - 2 ^ 63 + y + 2 ^ 63)%Z
    with ((x + 2 ^ 63) `mod` 2 ^ 64 + y)%Z by lia.
  rewrite Zplus_mod_idemp_l. f_equal. lia.
Qed.

(** The sum of an int64 column is the sum of its values, wrapped around. *)
Lemma sum_wrap (zs : list Z) : sum zs = wrap64 (foldr Z.add 0%Z zs).
Proof.
  unfold sum.
  assert (∀ acc, foldl int64_add (wrap64 acc) zs
                 = wrap64 (acc + foldr Z.add 0%Z zs)) as Hgen.
  { induction zs as [|z zs IH]; intros acc; simpl.
    - by rewrite Z.add_0_r.
    - unfold int64_add at 2. rewrite wrap64_add_l, IH. f_equal. lia. }
  rewrite <- (wrap64_id 0) at 1 by (unfold in_int64; lia).
  by rewrite Hgen.
Qed.

Lemma sum_perm (xs ys : list Z) : xs ≡ₚ ys → sum xs = sum ys.
Proof.
  intros HP. rewrite !sum_wrap. f_equal. induction HP; simpl; lia.
Qed.

Lemma add_pyint_wrap (x n : Z) :
  in_int64 n → add_pyint (wrap64 x) n = Return (wrap64 (x + n)).
Proof.
  intros Hn. unfold add_pyint, int64_add. rewrite decide_True by done.
  by rewrite wrap64_add_l.
Qed.

(** ** The scorer *)

Lemma team_score_same : PokeUi.team_score = Poke.team_score.
Proof. reflexivity. Qed.

(** The set the scorer builds holds exactly the listed categories. *)
Lemma types_categories (team : DataFrame) :
  list_to_set (Type_1 <$> team.*2) ∪ list_to_set (omap Type_2 team.*2)
  =@{gset string} list_to_set (categories team).
Proof.
  apply set_eq. intros x. unfold categories.
  rewrite elem_of_union, !elem_of_list_to_set, list_elem_of_fmap,
    list_elem_of_omap, list_elem_of_bind.
  split.
  - intros [(r & -> & Hr)|(r & Hr & Ht)]; exists r; split; try done.
    + apply elem_of_cons. by left.
    + apply elem_of_cons. right. rewrite Ht. simpl.
      by apply list_elem_of_singleton.
  - intros (r & [->|Hx]%elem_of_cons & Hr).
    + left. by exists r.
    + right. exists r. split; [done|].
      destruct (Type_2 r) as [t|]; simpl in Hx.
      * apply list_elem_of_singleton in Hx. by subst.
      * by apply elem_of_nil in Hx.
Qed.

Lemma size_list_to_set_remove_dups (l : list string) :
  size (list_to_set l : gset string) = length (remove_dups l).
Proof.
  rewrite <- (size_list_to_set (C:=gset string) (remove_dups l))
    by apply NoDup_remove_dups.
  f_equal. apply set_eq. intros x.
  by rewrite !elem_of_list_to_set, elem_of_remove_dups.
Qed.

Lemma size_types (team : DataFrame) :
  size (list_to_set (Type_1 <$> team.*2) ∪ list_to_set (omap Type_2 team.*2)
        : gset string)
  = distinct_categories team.
Proof. by rewrite types_categories, size_list_to_set_remove_dups. Qed.

Lemma foldr_totals (team : DataFrame) :
  foldr Z.add 0%Z (Total <$> team.*2) = fitness_total team.
Proof.
  induction team as [|p team IH]; [done|].
  rewrite !fmap_cons. simpl foldr. simpl fitness_total. by rewrite IH.
Qed.

(** The score as the code computes it, over the integers. *)
Lemma team_score_value (team : DataFrame) (type_bonus : Z) :
  Poke.team_score team type_bonus
  = if decide (in_int64 (type_bonus * Z.of_nat (distinct_categories team)))
    then Return (wrap64 (spec_score team type_bonus))
    else Raise OverflowError.
Proof.
  unfold Poke.team_score. cbv zeta. rewrite size_types, sum_wrap.
  rewrite foldr_totals.
  unfold add_pyint, int64_add, spec_score.
  destruct (decide _); [|done]. by rewrite wrap64_add_l.
Qed.

(** The score is the specification's exactly when nothing overflows. *)
Lemma team_score_exact (team : DataFrame) (type_bonus : Z) :
  Poke.team_score team type_bonus = Return (spec_score team type_bonus) ↔
  fits team type_bonus.
Proof.
  rewrite team_score_value. unfold fits. destruct (decide _) as [Hb|Hb].
  - split.
    + intros [= Heq]. split; [done|]. by apply wrap64_id_inv.
    + intros [_ Hs]. by rewrite wrap64_id.
  - split; [done|]. by intros [? _].
Qed.

Lemma team_score_raise (team : DataFrame) (type_bonus : Z) (e : exn) :
  Poke.team_score team type_bonus = Raise e → e = OverflowError.
Proof. rewrite team_score_value. destruct (decide _); congruence. Qed.

Lemma team_score_fuel (team : DataFrame) (type_bonus : Z) :
  Poke.team_score team type_bonus ≠ OutOfFuel.
Proof. rewrite team_score_value. by destruct (decide _). Qed.

Lemma categories_perm (team team' : DataFrame) :
  team ≡ₚ team' → categories team ≡ₚ categories team'.
Proof. unfold categories. by intros ->. Qed.

Lemma distinct_categories_perm (team team' : DataFrame) :
  team ≡ₚ team' → distinct_categories team = distinct_categories team'.
Proof.
  intros HP. unfold distinct_categories.
  rewrite <- !size_list_to_set_remove_dups.
  by rewrite (categories_perm _ _ HP).
Qed.

Lemma fitness_total_perm (team team' : DataFrame) :
  team ≡ₚ team' → fitness_total team = fitness_total team'.
Proof. induction 1; simpl; lia. Qed.

Lemma fitness_total_app (team1 team2 : DataFrame) :
  fitness_total (team1 ++ team2)
  = (fitness_total team1 + fitness_total team2)%Z.
Proof. induction team1 as [|p team1 IH]; simpl; lia. Qed.

Lemma spec_score_perm (team team' : DataFrame) (type_bonus : Z) :
  team ≡ₚ team' → spec_score team type_bonus = spec_score team' type_bonus.
Proof.
  intros HP. unfold spec_score.
  by rewrite (fitness_total_perm _ _ HP), (distinct_categories_perm _ _ HP).
Qed.

Lemma team_score_perm (team team' : DataFrame) (type_bonus : Z) :
  team ≡ₚ team' →
  Poke.team_score team type_bonus = Poke.team_score team' type_bonus.
Proof.
  intros HP. rewrite !team_score_value.
  by rewrite (spec_score_perm _ _ _ HP), (distinct_categories_perm _ _ HP).
Qed.

Lemma categories_cons (p : nat * Row) (team : DataFrame) :
  categories (p :: team) = row_categories p.2 ++ categories team.
Proof. reflexivity. Qed.

Lemma categories_app (team1 team2 : DataFrame) :
  categories (team1 ++ team2) = categories team1 ++ categories team2.
Proof. unfold categories. by rewrite !fmap_app, bind_app. Qed.

Lemma size_new_categories (team : DataFrame) (x : Row) :
  size (list_to_set (row_categories x) ∖ list_to_set (categories team)
        : gset string)
  = new_categories team x.
Proof.
  unfold new_categories.
  rewrite <- (size_list_to_set (C:=gset string))
    by apply NoDup_filter, NoDup_remove_dups.
  f_equal. apply set_eq. intros t.
  rewrite elem_of_difference, !elem_of_list_to_set, list_elem_of_filter,
    elem_of_remove_dups.
  tauto.
Qed.

(** One more entity adds the categories the team lacked. *)
Lemma distinct_categories_cons (p : nat * Row) (team : DataFrame) :
  distinct_categories (p :: team)
  = distinct_categories team + new_categories team p.2.
Proof.
  unfold distinct_categories.
  rewrite <- !size_list_to_set_remove_dups, categories_cons,
    list_to_set_app_L, (comm_L (∪)), size_union_alt.
  by rewrite size_new_categories.
Qed.

Lemma spec_score_cons (p : nat * Row) (team : DataFrame) (type_bonus : Z) :
  spec_score (p :: team) type_bonus
  = (spec_score team type_bonus + Total p.2
     + type_bonus * Z.of_nat (new_categories team p.2))%Z.
Proof. unfold spec_score. rewrite distinct_categories_cons. simpl. lia. Qed.

Lemma length_remove_dups (l : list string) :
  length (remove_dups l) ≤ length l.
Proof.
  induction l as [|x l IH]; simpl; [done|].
  destruct (decide_rel _ x l); simpl; lia.
Qed.

Lemma length_categories (team : DataFrame) :
  length (categories team) ≤ 2 * length team.
Proof.
  induction team as [|p team IH]; [done|].
  rewrite categories_cons, length_app. unfold row_categories.
  destruct (Type_2 p.2); simpl in *; lia.
Qed.

Lemma distinct_categories_le (team : DataFrame) :
  distinct_categories team ≤ 2 * length team.
Proof.
  unfold distinct_categories.
  etrans; [apply length_remove_dups|apply length_categories].
Qed.

Lemma distinct_categories_pos (team : DataFrame) :
  team ≠ [] → 1 ≤ distinct_categories team.
Proof.
  destruct team as [|p team]; [done|]. intros _. unfold distinct_categories.
  assert (Type_1 p.2 ∈ remove_dups (categories (p :: team))) as Hin.
  { apply elem_of_remove_dups. rewrite categories_cons. left. }
  destruct (remove_dups _); [by apply elem_of_nil in Hin|simpl; lia].
Qed.

(** A product with a factor between 0 and a bound that fits, fits. *)
Lemma in_int64_mul_le (b : Z) (m n : nat) :
  m ≤ n → in_int64 (b * Z.of_nat n) → in_int64 (b * Z.of_nat m).
Proof.
  unfold in_int64. intros Hm Hn.
  destruct (Z.le_gt_cases 0 b) as [Hb|Hb].
  - assert (0 ≤ b * Z.of_nat m ≤ b * Z.of_nat n)%Z; [|lia].
    split; [apply Z.mul_nonneg_nonneg; lia|].
    apply Z.mul_le_mono_nonneg_l; lia.
  - assert (b * Z.of_nat n ≤ b * Z.of_nat m ≤ 0)%Z; [|lia].
    split; [apply Z.mul_le_mono_nonpos_l; lia|].
    apply Z.mul_nonpos_nonneg; lia.
Qed.

(** Within the range of the bonus the scorer returns. *)
Lemma team_score_returns (team : DataFrame) (type_bonus : Z) (n : nat) :
  bonus_fits type_bonus n → length team ≤ n →
  Poke.team_score team type_bonus
  = Return (wrap64 (spec_score team type_bonus)).
Proof.
  intros Hb Hlen. rewrite team_score_value, decide_True; [done|].
  apply (in_int64_mul_le _ _ (2 * n)); [|done].
  pose proof (distinct_categories_le team). lia.
Qed.

Lemma fitness_total_nonneg (team : DataFrame) :
  Forall (λ q, 0 ≤ Total q.2)%Z team → (0 ≤ fitness_total team)%Z.
Proof. induction 1; simpl; lia. Qed.

(** With nothing negative a score below 2^63 is computed exactly. *)
Lemma fits_nonneg (team : DataFrame) (type_bonus : Z) :
  (0 ≤ type_bonus)%Z →
  Forall (λ q, 0 ≤ Total q.2)%Z team →
  (spec_score team type_bonus < 2 ^ 63)%Z →
  fits team type_bonus.
Proof.
  intros Hb Hteam Hlt. apply fitness_total_nonneg in Hteam.
  unfold fits, in_int64, spec_score in *.
  assert (0 ≤ type_bonus * Z.of_nat (distinct_categories team))%Z
    by (apply Z.mul_nonneg_nonneg; lia).
  lia.
Qed.

Lemma spec_score_cons_le (p : nat * Row) (team : DataFrame) (type_bonus : Z) :
  (0 ≤ type_bonus)%Z →
  (spec_score team type_bonus + Total p.2
   ≤ spec_score (p :: team) type_bonus)%Z.
Proof.
  intros Hb. rewrite spec_score_cons.
  assert (0 ≤ type_bonus * Z.of_nat (new_categories team p.2))%Z
    by (apply Z.mul_nonneg_nonneg; lia).
  lia.
Qed.

Lemma distinct_categories_app_le (team1 team2 : DataFrame) :
  distinct_categories (team1 ++ team2)
  ≤ distinct_categories team1 + distinct_categories team2.
Proof.
  unfold distinct_categories.
  rewrite <- !size_list_to_set_remove_dups, categories_app,
    list_to_set_app_L, size_union_alt.
  apply Nat.add_le_mono_l, subseteq_size. intros t Ht.
  by apply elem_of_difference in Ht as [Ht _].
Qed.

(** C3 — For every subset of entities, the empty one included, and every
    type bonus for which the bonus term and the score are int64 values,
    [team_score] (in both programs) returns the sum of the fitness values
    plus the bonus times the number of distinct categories among all
    primary categories and all secondary categories that are present; an
    absent secondary category adds nothing to the categories counted.  The
    empty subset scores 0 whatever the bonus. *)
Theorem C3_team_score_formula (team : DataFrame) (type_bonus : Z) :
  fits team type_bonus →
  Poke.team_score team type_bonus = Return (spec_score team type_bonus) ∧
  PokeUi.team_score team type_bonus = Return (spec_score team type_bonus) ∧
  Poke.team_score [] type_bonus = Return 0%Z ∧
  PokeUi.team_score [] type_bonus = Return 0%Z.
Proof.
  intros Hfits. change PokeUi.team_score with Poke.team_score.
  assert (Poke.team_score [] type_bonus = Return 0%Z) as Hnil.
  { rewrite team_score_value. unfold spec_score, distinct_categories. simpl.
    rewrite Z.mul_0_r. by rewrite decide_True by (unfold in_int64; lia). }
  split_and!; try done; by apply team_score_exact.
Qed.

Lemma C3_team_score_formula_witness :
  Poke.team_score [(2, C); (0, A)] 20
  = Return (spec_score [(2, C); (0, A)] 20) ∧
  PokeUi.team_score [(2, C); (0, A)] 20
  = Return (spec_score [(2, C); (0, A)] 20) ∧
  Poke.team_score [] 20 = Return 0%Z ∧
  PokeUi.team_score [] 20 = Return 0%Z.
Proof.
  apply (C3_team_score_formula [(2, C); (0, A)] 20).
  unfold fits, in_int64. by vm_compute.
Defined.

(** C3, as the claim has it, fails where the arithmetic overflows: the
    fitness values of P and Q add up to 2^63, which wraps around, and a
    bonus of 2^63 is no int64 value. *)
Lemma C3_counterexample :
  Poke.team_score [(0, P); (1, Q)] 20 = Return (-9223372036854775788)%Z ∧
  PokeUi.team_score [(0, P); (1, Q)] 20 = Return (-9223372036854775788)%Z ∧
  spec_score [(0, P); (1, Q)] 20 = 9223372036854775828%Z ∧
  Poke.team_score [(0, P); (1, Q)] 20
  ≠ Return (spec_score [(0, P); (1, Q)] 20) ∧
  Poke.team_score [(0, A)] (2 ^ 63) = Raise OverflowError ∧
  PokeUi.team_score [(0, A)] (2 ^ 63) = Raise OverflowError.
Proof. split_and!; by vm_compute. Qed.

(** C6 — With a type bonus and fitness values that are not negative, and
    the score of the larger subset below 2^63, adding an entity to a subset
    (at any position) does not lower the score: both scores are returned,
    and the second is at least the first. *)
Theorem C6_team_score_monotone (team1 team2 : DataFrame) (p : nat * Row)
    (type_bonus : Z) :
  (0 ≤ type_bonus)%Z →
  Forall (λ q, 0 ≤ Total q.2)%Z (team1 ++ team2) →
  (0 ≤ Total p.2)%Z →
  (spec_score (team1 ++ p :: team2) type_bonus < 2 ^ 63)%Z →
  ∃ s s',
    Poke.team_score (team1 ++ team2) type_bonus = Return s ∧
    Poke.team_score (team1 ++ p :: team2) type_bonus = Return s' ∧
    PokeUi.team_score (team1 ++ team2) type_bonus = Return s ∧
    PokeUi.team_score (team1 ++ p :: team2) type_bonus = Return s' ∧
    (s ≤ s')%Z.
Proof.
  intros Hb Hteam Hp Hlt. change PokeUi.team_score with Poke.team_score.
  assert (team1 ++ p :: team2 ≡ₚ p :: team1 ++ team2) as HP
    by (symmetry; apply Permutation_middle).
  rewrite (spec_score_perm _ _ _ HP) in Hlt.
  rewrite (team_score_perm _ _ _ HP).
  pose proof (spec_score_cons_le p (team1 ++ team2) type_bonus Hb) as Hle.
  exists (spec_score (team1 ++ team2) type_bonus),
    (spec_score (p :: team1 ++ team2) type_bonus).
  assert (Poke.team_score (team1 ++ team2) type_bonus
          = Return (spec_score (team1 ++ team2) type_bonus)) as Hs
    by (apply team_score_exact, fits_nonneg; [done..|lia]).
  assert (Poke.team_score (p :: team1 ++ team2) type_bonus
          = Return (spec_score (p :: team1 ++ team2) type_bonus)) as Hs'
    by (apply team_score_exact, fits_nonneg; [done|by constructor|done]).
  split_and!; try done. lia.
Qed.

Lemma C6_team_score_monotone_witness :
  ∃ s s',
    Poke.team_score ([(2, C)] ++ []) 20 = Return s ∧
    Poke.team_score ([(2, C)] ++ (0, A) :: []) 20 = Return s' ∧
    PokeUi.team_score ([(2, C)] ++ []) 20 = Return s ∧
    PokeUi.team_score ([(2, C)] ++ (0, A) :: []) 20 = Return s' ∧
    (s ≤ s')%Z.
Proof.
  apply (C6_team_score_monotone [(2, C)] [] (0, A) 20).
  - lia.
  - repeat constructor; simpl; lia.
  - simpl; lia.
  - by vm_compute.
Defined.

(** C6, as the claim has it, fails where the sum overflows: adding Q to the
    subset of P alone, all values being non-negative, lowers the score. *)
Lemma C6_counterexample :
  Forall (λ q, 0 ≤ Total q.2)%Z ([(0, P)] ++ []) ∧
  (0 ≤ Total (1, Q).2)%Z ∧
  Poke.team_score ([(0, P)] ++ []) 20 = Return 4611686018427387924%Z ∧
  Poke.team_score ([(0, P)] ++ (1, Q) :: []) 20
  = Return (-9223372036854775788)%Z ∧
  PokeUi.team_score ([(0, P)] ++ []) 20 = Return 4611686018427387924%Z ∧
  PokeUi.team_score ([(0, P)] ++ (1, Q) :: []) 20
  = Return (-9223372036854775788)%Z ∧
  (-9223372036854775788 < 4611686018427387924)%Z.
Proof.
  split_and!; try (by vm_compute).
  repeat constructor. by vm_compute.
Qed.

(** C7 — [team_score] depends on the entities of its input only, not on
    their order: two orderings of the same collection get the same score,
    whatever the type bonus. *)
Theorem C7_team_score_order_independent (team team' : DataFrame)
    (type_bonus : Z) :
  team ≡ₚ team' →
  Poke.team_score team type_bonus = Poke.team_score team' type_bonus ∧
  PokeUi.team_score team type_bonus = PokeUi.team_score team' type_bonus.
Proof. intros HP. split; by apply team_score_perm. Qed.

Lemma C7_team_score_order_independent_witness :
  Poke.team_score [(2, C); (0, A)] 20 = Poke.team_score [(0, A); (2, C)] 20 ∧
  PokeUi.team_score [(2, C); (0, A)] 20 = PokeUi.team_score [(0, A); (2, C)] 20.
Proof.
  apply (C7_team_score_order_independent [(2, C); (0, A)] [(0, A); (2, C)] 20).
  apply perm_swap.
Defined.

(** ** More on the scorer *)

(** X5 — What one more entity is worth, where nothing overflows: its
    fitness value, plus the type bonus for each of its categories that the
    team did not have. *)
Theorem X5_team_score_gain (p : nat * Row) (team : DataFrame)
    (type_bonus : Z) :
  fits team type_bonus →
  fits (p :: team) type_bonus →
  ∃ s,
    Poke.team_score team type_bonus = Return s ∧
    PokeUi.team_score team type_bonus = Return s ∧
    Poke.team_score (p :: team) type_bonus
    = Return (s + Total p.2
              + type_bonus * Z.of_nat (new_categories team p.2))%Z ∧
    PokeUi.team_score (p :: team) type_bonus
    = Return (s + Total p.2
              + type_bonus * Z.of_nat (new_categories team p.2))%Z.
Proof.
  intros Hteam Hcons. change PokeUi.team_score with Poke.team_score.
  apply team_score_exact in Hteam, Hcons. rewrite spec_score_cons in Hcons.
  by exists (spec_score team type_bonus).
Qed.

Lemma X5_team_score_gain_witness :
  ∃ s,
    Poke.team_score [(2%nat, C)] 20 = Return s ∧
    PokeUi.team_score [(2%nat, C)] 20 = Return s ∧
    Poke.team_score [(0%nat, A); (2%nat, C)] 20
    = Return (s + Total (0%nat, A).2
              + 20 * Z.of_nat (new_categories [(2%nat, C)] (0%nat, A).2))%Z ∧
    PokeUi.team_score [(0%nat, A); (2%nat, C)] 20
    = Return (s + Total (0%nat, A).2
              + 20 * Z.of_nat (new_categories [(2%nat, C)] (0%nat, A).2))%Z.
Proof.
  apply (X5_team_score_gain (0%nat, A) [(2%nat, C)] 20);
    unfold fits, in_int64; by vm_compute.
Defined.

(** X6 — A team that is not empty counts at least one category and at most
    two for each entity: with a type bonus that is not negative and no
    overflow, its score lies between the fitness sum plus one bonus and the
    fitness sum plus two bonuses for each entity. *)
Theorem X6_team_score_bounds (team : DataFrame) (type_bonus : Z) :
  team ≠ [] →
  (0 ≤ type_bonus)%Z →
  fits team type_bonus →
  ∃ s,
    Poke.team_score team type_bonus = Return s ∧
    PokeUi.team_score team type_bonus = Return s ∧
    (fitness_total team + type_bonus ≤ s
     ≤ fitness_total team + 2 * type_bonus * Z.of_nat (length team))%Z.
Proof.
  intros Hne Hb Hfits. change PokeUi.team_score with Poke.team_score.
  apply team_score_exact in Hfits.
  exists (spec_score team type_bonus). split_and!; try done.
  - unfold spec_score. pose proof (distinct_categories_pos team Hne). nia.
  - unfold spec_score. pose proof (distinct_categories_le team). nia.
Qed.

Lemma X6_team_score_bounds_witness :
  ∃ s,
    Poke.team_score [(2%nat, C); (0%nat, A)] 20 = Return s ∧
    PokeUi.team_score [(2%nat, C); (0%nat, A)] 20 = Return s ∧
    (fitness_total [(2%nat, C); (0%nat, A)] + 20 ≤ s
     ≤ fitness_total [(2%nat, C); (0%nat, A)]
       + 2 * 20 * Z.of_nat (length [(2%nat, C); (0%nat, A)]))%Z.
Proof.
  apply (X6_team_score_bounds [(2%nat, C); (0%nat, A)] 20);
    [discriminate|lia|unfold fits, in_int64; by vm_compute].
Defined.

(** X7 — With a type bonus that is not negative and no overflow, the score
    of two teams put together is at most the sum of their scores: a category
    both have is paid once. *)
Theorem X7_team_score_subadditive (team1 team2 : DataFrame) (type_bonus : Z) :
  (0 ≤ type_bonus)%Z →
  fits team1 type_bonus →
  fits team2 type_bonus →
  fits (team1 ++ team2) type_bonus →
  ∃ s1 s2 s,
    Poke.team_score team1 type_bonus = Return s1 ∧
    Poke.team_score team2 type_bonus = Return s2 ∧
    Poke.team_score (team1 ++ team2) type_bonus = Return s ∧
    PokeUi.team_score team1 type_bonus = Return s1 ∧
    PokeUi.team_score team2 type_bonus = Return s2 ∧
    PokeUi.team_score (team1 ++ team2) type_bonus = Return s ∧
    (s ≤ s1 + s2)%Z.
Proof.
  intros Hb H1 H2 H12. change PokeUi.team_score with Poke.team_score.
  apply team_score_exact in H1, H2, H12.
  exists (spec_score team1 type_bonus), (spec_score team2 type_bonus),
    (spec_score (team1 ++ team2) type_bonus).
  split_and!; try done.
  unfold spec_score. rewrite fitness_total_app.
  pose proof (distinct_categories_app_le team1 team2). nia.
Qed.

Lemma X7_team_score_subadditive_witness :
  ∃ s1 s2 s,
    Poke.team_score [(2%nat, C)] 20 = Return s1 ∧
    Poke.team_score [(0%nat, A)] 20 = Return s2 ∧
    Poke.team_score ([(2%nat, C)] ++ [(0%nat, A)]) 20 = Return s ∧
    PokeUi.team_score [(2%nat, C)] 20 = Return s1 ∧
    PokeUi.team_score [(0%nat, A)] 20 = Return s2 ∧
    PokeUi.team_score ([(2%nat, C)] ++ [(0%nat, A)]) 20 = Return s ∧
    (s ≤ s1 + s2)%Z.
Proof.
  apply (X7_team_score_subadditive [(2%nat, C)] [(0%nat, A)] 20);
    [lia|unfold fits, in_int64; by vm_compute..].
Defined.

(** ** The scan over the remaining candidates *)

Lemma scan_same : PokeUi.scan = Poke.scan.
Proof. reflexivity. Qed.

Lemma gt_true (z : Z) (best : ext) :
  gt z best = true ↔ match best with NegInf => True | Int b => (b < z)%Z end.
Proof. destruct best; simpl; [done|]. apply bool_decide_eq_true. Qed.

Lemma gt_false (z : Z) (best : ext) :
  gt z best = false ↔ ∃ b, best = Int b ∧ (z ≤ b)%Z.
Proof.
  destruct best as [|b]; simpl.
  - split; [done|]. by intros (b & ? & _).
  - rewrite bool_decide_eq_false. split.
    + intros. exists b. split; [done|lia].
    + intros (b' & [= <-] & ?). lia.
Qed.

Section scan.
Context (pool : list Row) (type_bonus : Z) (chosen_idx : list nat).
Hypothesis chosen_in_pool : Forall (λ i, i < length pool) chosen_idx.

#[local] Abbreviation score := (candidate_score pool type_bonus chosen_idx).

Lemma loc_candidate (j : nat) :
  j < length pool →
  loc (reset_index pool) (chosen_idx ++ [j])
  = Return (select_rows pool (chosen_idx ++ [j])).
Proof.
  intros Hj. apply loc_reset_index, Forall_app. split; [done|].
  by apply Forall_singleton.
Qed.

(** What the scan returns when the score of every candidate is returned:
    either no candidate beat the incoming best and nothing changed, or the
    result is the first candidate of greatest score, which beats the
    incoming best. *)
Lemma scan_spec (sc : nat → Z) (remaining : DataFrame)
    (best_idx : option nat) (best : ext) :
  Forall (λ p, p.1 < length pool) remaining →
  Forall (λ p, score p.1 = Return (sc p.1)) remaining →
  (Poke.scan (reset_index pool) type_bonus chosen_idx remaining best_idx best
   = Return (best_idx, best) ∧
   Forall (λ q, gt (sc q.1) best = false) remaining) ∨
  (∃ pre p post,
    remaining = pre ++ p :: post ∧
    Poke.scan (reset_index pool) type_bonus chosen_idx remaining best_idx best
    = Return (Some p.1, Int (sc p.1)) ∧
    gt (sc p.1) best = true ∧
    Forall (λ q, sc q.1 < sc p.1)%Z pre ∧
    Forall (λ q, sc q.1 ≤ sc p.1)%Z post).
Proof.
  intros Hrem Hsc. revert best_idx best.
  induction Hrem as [|[j x] rest Hj _ IH]; intros best_idx best.
  { left. by split. }
  apply Forall_cons in Hsc as [Hscj Hsc]. specialize (IH Hsc).
  simpl in Hj, Hscj. unfold candidate_score in Hscj.
  simpl. rewrite (loc_candidate j Hj). simpl. rewrite Hscj. simpl.
  destruct (gt (sc j) best) eqn:Hgt.
  - right. destruct (IH (Some j) (Int (sc j)))
      as [[-> Hall]|(pre & p & post & -> & -> & Hp & Hpre & Hpost)].
    + exists [], (j, x), rest. split_and!; try done.
      eapply Forall_impl; [exact Hall|]. intros q Hq.
      apply gt_false in Hq as (b & [= <-] & ?). done.
    + apply gt_true in Hp. exists ((j, x) :: pre), p, post.
      split_and!; try done.
      * apply gt_true. apply gt_true in Hgt. destruct best; [done|lia].
      * by constructor.
  - destruct (IH best_idx best)
      as [[-> Hall]|(pre & p & post & -> & -> & Hp & Hpre & Hpost)].
    + left. split; [done|]. by constructor.
    + right. exists ((j, x) :: pre), p, post. split_and!; try done.
      constructor; [|done]. simpl.
      apply gt_false in Hgt as (b & -> & ?). apply gt_true in Hp. lia.
Qed.

(** The scan from [best_idx = None] and a best of minus infinity, over a
    frame that is not empty. *)
Lemma scan_fresh (sc : nat → Z) (remaining : DataFrame) :
  Forall (λ p, p.1 < length pool) remaining →
  Forall (λ p, score p.1 = Return (sc p.1)) remaining →
  remaining ≠ [] →
  ∃ pre p post,
    remaining = pre ++ p :: post ∧
    Poke.scan (reset_index pool) type_bonus chosen_idx remaining None NegInf
    = Return (Some p.1, Int (sc p.1)) ∧
    Forall (λ q, sc q.1 < sc p.1)%Z pre ∧
    Forall (λ q, sc q.1 ≤ sc p.1)%Z post.
Proof.
  intros Hrem Hsc Hne.
  destruct (scan_spec sc remaining None NegInf Hrem Hsc)
    as [[_ Hall]|(pre & p & post & ? & ? & _ & ? & ?)].
  - destruct remaining as [|q rest]; [done|].
    apply Forall_cons in Hall as [Hq _]. done.
  - by exists pre, p, post.
Qed.

(** The scan ends in [OverflowError] unless the score of every candidate is
    returned. *)
Lemma scan_cases (remaining : DataFrame) (best_idx : option nat) (best : ext) :
  Forall (λ p, p.1 < length pool) remaining →
  Poke.scan (reset_index pool) type_bonus chosen_idx remaining best_idx best
  = Raise OverflowError ∨
  Forall (λ p, ∃ s, score p.1 = Return s) remaining.
Proof.
  intros Hrem. revert best_idx best.
  induction Hrem as [|[j x] rest Hj _ IH]; intros best_idx best.
  { by right. }
  simpl in Hj. simpl. rewrite (loc_candidate j Hj). simpl.
  destruct (score j) as [s|e|] eqn:Hs; unfold candidate_score in Hs;
    rewrite Hs; simpl.
  - destruct (gt s best).
    + destruct (IH (Some j) (Int s)) as [?|?]; [by left|right].
      constructor; [by exists s|done].
    + destruct (IH best_idx best) as [?|?]; [by left|right].
      constructor; [by exists s|done].
  - left. by rewrite (team_score_raise _ _ _ Hs).
  - by apply team_score_fuel in Hs.
Qed.

End scan.

(** The score of a candidate where it is returned, 0 elsewhere. *)
Lemma score_function (pool : list Row) (type_bonus : Z) (c : list nat) :
  ∃ sc : nat → Z, ∀ j s,
    candidate_score pool type_bonus c j = Return s → s = sc j.
Proof.
  exists (λ j, match candidate_score pool type_bonus c j with
               | Return s => s
               | _ => 0%Z
               end).
  by intros j s ->.
Qed.

(** ** The fuel suffices, on every frame *)

Lemma loc_fuel (df : DataFrame) (labels : list nat) : loc df labels ≠ OutOfFuel.
Proof.
  induction labels as [|l ls IH]; simpl; [done|].
  destruct (rows_with df l); [done|]. by destruct (loc df ls).
Qed.

Lemma scan_fuel (df : DataFrame) (type_bonus : Z) (chosen_idx : list nat)
    (remaining : DataFrame) (best_idx : option nat) (best : ext) :
  Poke.scan df type_bonus chosen_idx remaining best_idx best ≠ OutOfFuel.
Proof.
  revert best_idx best. induction remaining as [|[idx row] rest IH];
    intros best_idx best; simpl; [done|].
  pose proof (loc_fuel df (chosen_idx ++ [idx])) as Hloc.
  destruct (loc df (chosen_idx ++ [idx])) as [team| |]; simpl; [|done..].
  pose proof (team_score_fuel team type_bonus) as Hscore.
  destruct (Poke.team_score team type_bonus); simpl; [|done..].
  destruct (gt _ _); apply IH.
Qed.

Lemma drop_label_fuel (df : DataFrame) (l : nat) : drop_label df l ≠ OutOfFuel.
Proof. unfold drop_label. by destruct (decide _). Qed.

Lemma poke_while_fuel (fuel : nat) (df : DataFrame) (k type_bonus : Z)
    (chosen_idx : list nat) (remaining : DataFrame) (last : option ext) :
  Z.to_nat k - length chosen_idx < fuel →
  Poke.while fuel df k type_bonus chosen_idx remaining last ≠ OutOfFuel.
Proof.
  revert chosen_idx remaining last.
  induction fuel as [|fuel IH]; intros c r last Hfuel; [lia|].
  simpl. destruct (bool_decide_reflect (Z.of_nat (length c) < k)%Z); [|done].
  pose proof (scan_fuel df type_bonus c r None NegInf) as Hscan.
  destruct (Poke.scan df type_bonus c r None NegInf) as [[[i|] best]| |];
    simpl; [|done..].
  pose proof (drop_label_fuel r i) as Hdrop.
  destruct (drop_label r i); simpl; [|done..].
  apply IH. rewrite length_app. simpl. lia.
Qed.

Lemma ui_while_fuel (fuel : nat) (df : DataFrame) (k type_bonus : Z)
    (chosen_idx : list nat) (remaining : DataFrame) (last : option ext) :
  Z.to_nat k - length chosen_idx < fuel →
  PokeUi.while fuel df k type_bonus chosen_idx remaining last ≠ OutOfFuel.
Proof.
  revert chosen_idx remaining last.
  induction fuel as [|fuel IH]; intros c r last Hfuel; [lia|].
  simpl. destruct (bool_decide_reflect (Z.of_nat (length c) < k)%Z); [|done].
  destruct (PokeUi.empty r); simpl; [done|].
  change PokeUi.scan with Poke.scan.
  pose proof (scan_fuel df type_bonus c r None NegInf) as Hscan.
  destruct (Poke.scan df type_bonus c r None NegInf) as [[[i|] best]| |];
    simpl; [|done..].
  pose proof (drop_label_fuel r i) as Hdrop.
  destruct (drop_label r i); simpl; [|done..].
  apply IH. rewrite length_app. simpl. lia.
Qed.

(** Both selectors end, in a team or in an exception, whatever the frame. *)
Lemma greedy_team_fuel (df : DataFrame) (k type_bonus : Z) :
  Poke.greedy_team df k type_bonus ≠ OutOfFuel ∧
  PokeUi.greedy_team df k type_bonus ≠ OutOfFuel.
Proof.
  unfold Poke.greedy_team, PokeUi.greedy_team, Poke.select, PokeUi.select.
  assert (Z.to_nat k - length (@nil nat) < S (Z.to_nat k)) as Hfuel
    by (simpl; lia).
  pose proof (poke_while_fuel _ df k type_bonus [] df None Hfuel) as HP.
  pose proof (ui_while_fuel _ df k type_bonus [] df None Hfuel) as HU.
  split.
  - destruct (Poke.while _ _ _ _ _ _ _) as [[c last]| |]; simpl;
      [apply loc_fuel|done..].
  - destruct (PokeUi.while _ _ _ _ _ _ _) as [[c last]| |]; simpl;
      [apply loc_fuel|done..].
Qed.

(** More fuel does not change a run that ended. *)
Lemma poke_while_more_fuel (fuel fuel' : nat) (df : DataFrame)
    (k type_bonus : Z) (chosen_idx : list nat) (remaining : DataFrame)
    (last : option ext) :
  fuel ≤ fuel' →
  Poke.while fuel df k type_bonus chosen_idx remaining last ≠ OutOfFuel →
  Poke.while fuel' df k type_bonus chosen_idx remaining last
  = Poke.while fuel df k type_bonus chosen_idx remaining last.
Proof.
  revert fuel' chosen_idx remaining last.
  induction fuel as [|fuel IH]; intros fuel' c r last Hle; [done|].
  destruct fuel' as [|fuel']; [lia|]. simpl.
  destruct (bool_decide (Z.of_nat (length c) < k)%Z); [|done].
  destruct (Poke.scan df type_bonus c r None NegInf) as [[[i|] best]| |];
    simpl; [|done..].
  destruct (drop_label r i); simpl; [|done..]. apply IH. lia.
Qed.

Lemma ui_while_more_fuel (fuel fuel' : nat) (df : DataFrame)
    (k type_bonus : Z) (chosen_idx : list nat) (remaining : DataFrame)
    (last : option ext) :
  fuel ≤ fuel' →
  PokeUi.while fuel df k type_bonus chosen_idx remaining last ≠ OutOfFuel →
  PokeUi.while fuel' df k type_bonus chosen_idx remaining last
  = PokeUi.while fuel df k type_bonus chosen_idx remaining last.
Proof.
  revert fuel' chosen_idx remaining last.
  induction fuel as [|fuel IH]; intros fuel' c r last Hle; [done|].
  destruct fuel' as [|fuel']; [lia|]. simpl.
  destruct (bool_decide (Z.of_nat (length c) < k)%Z && negb (PokeUi.empty r));
    [|done].
  destruct (PokeUi.scan df type_bonus c r None NegInf) as [[[i|] best]| |];
    simpl; [|done..].
  destruct (drop_label r i); simpl; [|done..]. apply IH. lia.
Qed.

(** ** Chosen labels and remaining rows *)

Lemma labels_filter (P : nat → Prop) (Q : nat * Row → Prop)
    `{!∀ i, Decision (P i), !∀ p, Decision (Q p)} (df : DataFrame) :
  (∀ p, Q p ↔ P p.1) → (filter Q df).*1 = filter P df.*1.
Proof.
  intros HPQ. induction df as [|[i x] df IH]; [done|].
  rewrite fmap_cons, !filter_cons. simpl fst.
  destruct (decide (Q (i, x))) as [HQ|HQ], (decide (P i)) as [HP|HP].
  - rewrite fmap_cons. simpl fst. f_equal. exact IH.
  - apply HPQ in HQ. done.
  - apply (HPQ (i, x)) in HP. done.
  - exact IH.
Qed.

Lemma StronglySorted_filter {X} (R : relation X) (P : X → Prop)
    `{!∀ x, Decision (P x)} (l : list X) :
  StronglySorted R l → StronglySorted R (filter P l).
Proof.
  induction 1 as [|x l _ IH Hx]; [constructor|].
  rewrite filter_cons. destruct (decide (P x)); [|done].
  constructor; [done|]. apply Forall_forall. intros y Hy.
  apply list_elem_of_filter in Hy as [_ Hy].
  by apply (proj1 (Forall_forall _ _) Hx).
Qed.

Lemma StronglySorted_seq (o n : nat) : StronglySorted lt (seq o n).
Proof.
  revert o. induction n as [|n IH]; intros o; simpl; constructor; [done|].
  apply Forall_seq. lia.
Qed.

Lemma drop_label_present (df : DataFrame) (i : nat) :
  i ∈ df.*1 → drop_label df i = Return (filter (λ p, p.1 ≠ i) df).
Proof. intros Hi. unfold drop_label. by rewrite decide_True. Qed.

Section consistent.
Context (pool : list Row).
Implicit Types (c : list nat) (r : DataFrame).

Lemma consistent_init : consistent pool [] (reset_index pool).
Proof.
  split_and!; [constructor|constructor|].
  symmetry. induction (reset_index pool) as [|p l IH]; [done|].
  rewrite filter_cons_True; [by rewrite IH|]. apply not_elem_of_nil.
Qed.

Lemma consistent_labels c r :
  consistent pool c r → r.*1 = filter (.∉ c) (seq 0 (length pool)).
Proof.
  intros (_ & _ & ->). rewrite <- reset_index_labels.
  by apply labels_filter.
Qed.

Lemma consistent_elem_of c r j :
  consistent pool c r → j ∈ r.*1 ↔ j < length pool ∧ j ∉ c.
Proof.
  intros Hc. rewrite (consistent_labels c r Hc), list_elem_of_filter, elem_of_seq.
  split; intros []; split; try done; lia.
Qed.

Lemma consistent_sorted c r :
  consistent pool c r → StronglySorted lt r.*1.
Proof.
  intros Hc. rewrite (consistent_labels c r Hc).
  apply StronglySorted_filter, StronglySorted_seq.
Qed.

Lemma consistent_perm c r :
  consistent pool c r → c ++ r.*1 ≡ₚ seq 0 (length pool).
Proof.
  intros Hc. pose proof Hc as (Hnd & Hlt & _).
  apply NoDup_Permutation.
  - apply NoDup_app. split_and!; [done| |].
    + intros j Hj Hr. apply (consistent_elem_of c r j Hc) in Hr as [_ Hr]. done.
    + rewrite (consistent_labels c r Hc). apply NoDup_filter, NoDup_seq.
  - apply NoDup_seq.
  - intros j. rewrite elem_of_app, (consistent_elem_of c r j Hc), elem_of_seq.
    split.
    + intros [Hj|[Hj _]]; [|lia].
      apply (proj1 (Forall_forall _ _) Hlt) in Hj. lia.
    + intros [_ Hj]. destruct (decide (j ∈ c)); [by left|right]. split; [lia|done].
Qed.

Lemma consistent_length c r :
  consistent pool c r → length c + length r = length pool.
Proof.
  intros Hc. apply consistent_perm, Permutation_length in Hc.
  by rewrite length_app, length_fmap, length_seq in Hc.
Qed.

Lemma consistent_step c r i :
  consistent pool c r → i ∈ r.*1 →
  consistent pool (c ++ [i]) (filter (λ p, p.1 ≠ i) r).
Proof.
  intros Hc Hi. pose proof Hc as (Hnd & Hlt & ->).
  apply (consistent_elem_of c _ i Hc) in Hi as [Hi Hic].
  split_and!.
  - apply NoDup_app. split_and!; [done| |apply NoDup_singleton].
    intros j Hj ->%list_elem_of_singleton. done.
  - apply Forall_app. split; [done|]. by apply Forall_singleton.
  - rewrite list_filter_filter. apply list_filter_iff. intros [j x]. simpl.
    rewrite elem_of_app, list_elem_of_singleton. tauto.
Qed.

End consistent.

(** ** One iteration on a pool *)

Section selection.
Context (pool : list Row) (k type_bonus : Z).
Implicit Types (c : list nat) (r : DataFrame) (last : option ext).

#[local] Abbreviation score := (candidate_score pool type_bonus).

Lemma consistent_in_pool c r :
  consistent pool c r → Forall (λ p, p.1 < length pool) r.
Proof.
  intros Hc. apply Forall_forall. intros [j x] Hj.
  apply (consistent_elem_of pool c r j Hc), list_elem_of_fmap.
  by exists (j, x).
Qed.

(** From a consistent state with rows remaining, where the score of every
    candidate is returned, the scan settles on a remaining label of
    greatest candidate score, the smallest such label, and the drop that
    follows succeeds. *)
Lemma pick_spec (sc : nat → Z) c r :
  consistent pool c r → r ≠ [] →
  (∀ j, j ∈ r.*1 → score c j = Return (sc j)) →
  ∃ i,
    Poke.scan (reset_index pool) type_bonus c r None NegInf
    = Return (Some i, Int (sc i)) ∧
    drop_label r i = Return (filter (λ p, p.1 ≠ i) r) ∧
    i ∈ r.*1 ∧
    ∀ j, j ∈ r.*1 → (sc j ≤ sc i)%Z ∧ (sc j = sc i → i ≤ j).
Proof.
  intros Hc Hne Hsc. pose proof Hc as (_ & Hlt & _).
  pose proof (consistent_in_pool c r Hc) as Hr.
  assert (Forall (λ p, score c p.1 = Return (sc p.1)) r) as Hscr.
  { apply Forall_forall. intros [j x] Hj. apply Hsc, list_elem_of_fmap.
    by exists (j, x). }
  destruct (scan_fresh pool type_bonus c Hlt sc r Hr Hscr Hne)
    as (pre & p & post & Heq & Hscan & Hpre & Hpost).
  pose proof (consistent_sorted pool c r Hc) as Hsorted.
  rewrite Heq, fmap_app, fmap_cons in Hsorted.
  apply StronglySorted_app in Hsorted as (_ & _ & Hsorted).
  apply StronglySorted_cons in Hsorted as [Hafter _].
  assert (p.1 ∈ r.*1) as Hin.
  { rewrite Heq, fmap_app, fmap_cons. apply elem_of_app. right. left. }
  exists p.1. split_and!; [done|by apply drop_label_present|done|].
  intros j Hj. rewrite Heq, fmap_app, fmap_cons in Hj.
  apply elem_of_app in Hj as [Hj|Hj]; [|apply elem_of_cons in Hj as [->|Hj]].
  - apply list_elem_of_fmap in Hj as (q & -> & Hq).
    apply (proj1 (Forall_forall _ _) Hpre) in Hq. lia.
  - lia.
  - split.
    + apply list_elem_of_fmap in Hj as (q & -> & Hq).
      by apply (proj1 (Forall_forall _ _) Hpost) in Hq.
    + apply (proj1 (Forall_forall _ _) Hafter) in Hj. lia.
Qed.

(** What the scan of an iteration comes to: an [OverflowError] from the
    scorer, or the first remaining label of greatest candidate score. *)
Lemma scan_outcome c r :
  consistent pool c r → r ≠ [] →
  Poke.scan (reset_index pool) type_bonus c r None NegInf
  = Raise OverflowError ∨
  ∃ i s,
    Poke.scan (reset_index pool) type_bonus c r None NegInf
    = Return (Some i, Int s) ∧
    drop_label r i = Return (filter (λ p, p.1 ≠ i) r) ∧
    i ∈ r.*1 ∧
    score c i = Return s ∧
    ∀ j, j ∈ r.*1 →
      ∃ sj, score c j = Return sj ∧ (sj ≤ s)%Z ∧ (sj = s → i ≤ j).
Proof.
  intros Hc Hne. pose proof Hc as (_ & Hlt & _).
  destruct (scan_cases pool type_bonus c Hlt r None NegInf
              (consistent_in_pool c r Hc)) as [?|Hall]; [by left|right].
  destruct (score_function pool type_bonus c) as [sc Hsc].
  assert (∀ j, j ∈ r.*1 → score c j = Return (sc j)) as Hret.
  { intros j ([j' x] & -> & Hx)%list_elem_of_fmap.
    apply (proj1 (Forall_forall _ _) Hall) in Hx as [s Hs]. simpl in *.
    by rewrite <- (Hsc j' s Hs). }
  destruct (pick_spec sc c r Hc Hne Hret) as (i & Hscan & Hdrop & Hin & Hbest).
  exists i, (sc i). split_and!; try done; [by apply Hret|].
  intros j Hj. exists (sc j). split; [by apply Hret|by apply Hbest].
Qed.

(** Within the range of the bonus the scorer raises nothing in a scan. *)
Lemma score_returns c r j :
  consistent pool c r → j ∈ r.*1 →
  bonus_fits type_bonus (length pool) →
  ∃ s, score c j = Return s.
Proof.
  intros Hc Hj Hb. pose proof Hc as (_ & Hlt & _).
  pose proof (consistent_length pool c r Hc) as Hlen.
  assert (0 < length r).
  { apply list_elem_of_fmap in Hj as (p & _ & Hp).
    destruct r; [by apply elem_of_nil in Hp|simpl; lia]. }
  apply (consistent_elem_of pool c r j Hc) in Hj as [Hj _].
  eexists. apply (team_score_returns _ _ (length pool) Hb).
  rewrite length_select_rows, length_app; [simpl; lia|].
  apply Forall_app. split; [done|]. by apply Forall_singleton.
Qed.

Lemma scan_returns c r :
  consistent pool c r → r ≠ [] →
  bonus_fits type_bonus (length pool) →
  Poke.scan (reset_index pool) type_bonus c r None NegInf
  ≠ Raise OverflowError.
Proof.
  intros Hc Hne Hb. destruct (score_function pool type_bonus c) as [sc Hsc].
  assert (∀ j, j ∈ r.*1 → score c j = Return (sc j)) as Hret.
  { intros j Hj. destruct (score_returns c r j Hc Hj Hb) as [s Hs].
    by rewrite <- (Hsc j s Hs). }
  destruct (pick_spec sc c r Hc Hne Hret) as (i & -> & _). done.
Qed.

Lemma empty_false r : PokeUi.empty r = false ↔ r ≠ [].
Proof. by destruct r. Qed.

(** What holds at the loop head of [poke_ui.py]. *)
Lemma ui_head_facts c r last :
  PokeUi.head (reset_index pool) k type_bonus c r last →
  consistent pool c r ∧
  length c ≤ Z.to_nat k ∧
  (c = [] ∧ last = None ∨
   c ≠ [] ∧
   ∃ s, last = Some (Int s) ∧
        Poke.team_score (select_rows pool c) type_bonus = Return s).
Proof.
  induction 1 as [|c r last i best r' _ (Hc & Hlen & _) Hk Hne Hscan Hdrop].
  - split_and!; [apply consistent_init|simpl; lia|by left].
  - apply empty_false in Hne.
    change PokeUi.scan with Poke.scan in Hscan.
    destruct (scan_outcome c r Hc Hne)
      as [Hraise|(i' & s & Hscan' & Hdrop' & Hin & Hs & _)];
      [congruence|].
    rewrite Hscan' in Hscan. injection Hscan as -> <-.
    rewrite Hdrop' in Hdrop. injection Hdrop as <-.
    split_and!.
    + by apply consistent_step.
    + rewrite length_app. simpl. lia.
    + right. split; [by destruct c|]. by exists s.
Qed.

(** Every state of the [poke.py] loop is a state of the [poke_ui.py] loop:
    where the scan finds a candidate there was a row to scan. *)
Lemma poke_head_ui (df : DataFrame) c r last :
  Poke.head df k type_bonus c r last → PokeUi.head df k type_bonus c r last.
Proof.
  induction 1 as [|c r last i best r' _ IH Hk Hscan Hdrop]; [constructor|].
  eapply PokeUi.head_next; eauto. by destruct r.
Qed.

Lemma poke_head_facts c r last :
  Poke.head (reset_index pool) k type_bonus c r last →
  consistent pool c r ∧
  length c ≤ Z.to_nat k ∧
  (c = [] ∧ last = None ∨
   c ≠ [] ∧
   ∃ s, last = Some (Int s) ∧
        Poke.team_score (select_rows pool c) type_bonus = Return s).
Proof. intros H. by apply ui_head_facts, poke_head_ui. Qed.

(** And conversely: a step of the [poke_ui.py] loop is one of the
    [poke.py] loop. *)
Lemma ui_head_poke (df : DataFrame) c r last :
  PokeUi.head df k type_bonus c r last → Poke.head df k type_bonus c r last.
Proof. induction 1; [constructor|]. eapply Poke.head_next; eauto. Qed.

(** ** The loops run to their end *)

(** [poke_ui.py]: a run that returns ends in a state of the loop where the
    team is full or nothing remains. *)
Lemma ui_while_inv (fuel : nat) c r last c' last' :
  PokeUi.head (reset_index pool) k type_bonus c r last →
  PokeUi.while fuel (reset_index pool) k type_bonus c r last
  = Return (c', last') →
  ∃ r',
    PokeUi.head (reset_index pool) k type_bonus c' r' last' ∧
    (¬ (Z.of_nat (length c') < k)%Z ∨ r' = []).
Proof.
  revert c r last. induction fuel as [|fuel IH]; intros c r last Hhead; [done|].
  simpl. destruct (bool_decide_reflect (Z.of_nat (length c) < k)%Z) as [Hk|Hk];
    [destruct (PokeUi.empty r) eqn:Hr|]; simpl.
  - intros [= <- <-]. exists r. split; [done|]. right. by destruct r.
  - pose proof (ui_head_facts c r last Hhead) as (Hc & _ & _).
    change PokeUi.scan with Poke.scan.
    destruct (scan_outcome c r Hc (proj1 (empty_false r) Hr))
      as [->|(i & s & Hscan & Hdrop & _)]; [done|].
    rewrite Hscan. simpl. rewrite Hdrop. simpl. apply IH.
    eapply PokeUi.head_next; eauto.
  - intros [= <- <-]. exists r. split; [done|]. by left.
Qed.

(** [poke_ui.py]: within the range of the bonus, and with the fuel [select]
    gives it, the loop returns. *)
Lemma ui_while_run (fuel : nat) c r last :
  bonus_fits type_bonus (length pool) →
  PokeUi.head (reset_index pool) k type_bonus c r last →
  Z.to_nat k - length c < fuel →
  ∃ c' last',
    PokeUi.while fuel (reset_index pool) k type_bonus c r last
    = Return (c', last').
Proof.
  intros Hb. revert c r last.
  induction fuel as [|fuel IH]; intros c r last Hhead Hfuel; [lia|].
  simpl. destruct (bool_decide_reflect (Z.of_nat (length c) < k)%Z) as [Hk|Hk];
    [destruct (PokeUi.empty r) eqn:Hr|]; simpl; [by eexists _, _| |by eexists _, _].
  pose proof (ui_head_facts c r last Hhead) as (Hc & _ & _).
  apply empty_false in Hr as Hne.
  change PokeUi.scan with Poke.scan.
  destruct (scan_outcome c r Hc Hne)
    as [Hraise|(i & s & Hscan & Hdrop & _)].
  { by apply scan_returns in Hraise. }
  rewrite Hscan. simpl. rewrite Hdrop. simpl. apply IH.
  - eapply PokeUi.head_next; eauto.
  - rewrite length_app. simpl. lia.
Qed.

(** With a team size within the pool the two loops are one: [poke.py]
    never meets an empty frame of candidates. *)
Lemma poke_while_eq (fuel : nat) c r last :
  (k ≤ Z.of_nat (length pool))%Z →
  PokeUi.head (reset_index pool) k type_bonus c r last →
  Poke.while fuel (reset_index pool) k type_bonus c r last
  = PokeUi.while fuel (reset_index pool) k type_bonus c r last.
Proof.
  intros Hkn. revert c r last.
  induction fuel as [|fuel IH]; intros c r last Hhead; [done|].
  simpl. destruct (bool_decide_reflect (Z.of_nat (length c) < k)%Z) as [Hk|Hk];
    simpl; [|done].
  pose proof (ui_head_facts c r last Hhead) as (Hc & _ & _).
  assert (r ≠ []) as Hne.
  { intros ->. apply consistent_length in Hc. simpl in Hc. lia. }
  rewrite (proj2 (empty_false r) Hne). simpl.
  change PokeUi.scan with Poke.scan.
  destruct (scan_outcome c r Hc Hne)
    as [->|(i & s & Hscan & Hdrop & _)]; [done|].
  rewrite Hscan. simpl. rewrite Hdrop. simpl. apply IH.
  eapply PokeUi.head_next; eauto. by apply empty_false.
Qed.

(** [poke.py], with a team size beyond the pool and within the range of the
    bonus: the loop runs the pool empty and then raises. *)
Lemma poke_while_raise (fuel : nat) c r last :
  (Z.of_nat (length pool) < k)%Z →
  bonus_fits type_bonus (length pool) →
  Poke.head (reset_index pool) k type_bonus c r last →
  Z.to_nat k - length c < fuel →
  Poke.while fuel (reset_index pool) k type_bonus c r last = Raise ValueError.
Proof.
  intros Hkn Hb. revert c r last.
  induction fuel as [|fuel IH]; intros c r last Hhead Hfuel; [lia|].
  pose proof (poke_head_facts c r last Hhead) as (Hc & _ & _).
  pose proof (consistent_length pool c r Hc) as Hlen.
  simpl. rewrite bool_decide_eq_true_2 by lia.
  destruct (decide (r = [])) as [->|Hr]; [done|].
  destruct (scan_outcome c r Hc Hr)
    as [Hraise|(i & s & Hscan & Hdrop & _)].
  { by apply scan_returns in Hraise. }
  rewrite Hscan. simpl. rewrite Hdrop. simpl. apply IH.
  - eapply Poke.head_next; eauto. lia.
  - rewrite length_app. simpl. lia.
Qed.

(** Whatever the bonus, the fuel [select] gives is enough: the loop of
    [poke_ui.py] returns unless the scorer raises [OverflowError]. *)
Lemma ui_while_outcome (fuel : nat) c r last :
  PokeUi.head (reset_index pool) k type_bonus c r last →
  Z.to_nat k - length c < fuel →
  (∃ c' last',
     PokeUi.while fuel (reset_index pool) k type_bonus c r last
     = Return (c', last')) ∨
  PokeUi.while fuel (reset_index pool) k type_bonus c r last
  = Raise OverflowError.
Proof.
  revert c r last.
  induction fuel as [|fuel IH]; intros c r last Hhead Hfuel; [lia|].
  simpl. destruct (bool_decide_reflect (Z.of_nat (length c) < k)%Z) as [Hk|Hk];
    [destruct (PokeUi.empty r) eqn:Hr|]; simpl;
    [left; by eexists _, _| |left; by eexists _, _].
  pose proof (ui_head_facts c r last Hhead) as (Hc & _ & _).
  apply empty_false in Hr as Hne.
  change PokeUi.scan with Poke.scan.
  destruct (scan_outcome c r Hc Hne)
    as [->|(i & s & Hscan & Hdrop & _)]; [by right|].
  rewrite Hscan. simpl. rewrite Hdrop. simpl. apply IH.
  - eapply PokeUi.head_next; eauto.
  - rewrite length_app. simpl. lia.
Qed.

(** And the loop of [poke.py] with a team size beyond the pool raises, one
    error or the other. *)
Lemma poke_while_outcome (fuel : nat) c r last :
  (Z.of_nat (length pool) < k)%Z →
  Poke.head (reset_index pool) k type_bonus c r last →
  Z.to_nat k - length c < fuel →
  Poke.while fuel (reset_index pool) k type_bonus c r last = Raise ValueError ∨
  Poke.while fuel (reset_index pool) k type_bonus c r last
  = Raise OverflowError.
Proof.
  intros Hkn. revert c r last.
  induction fuel as [|fuel IH]; intros c r last Hhead Hfuel; [lia|].
  pose proof (poke_head_facts c r last Hhead) as (Hc & _ & _).
  pose proof (consistent_length pool c r Hc) as Hlen.
  simpl. rewrite bool_decide_eq_true_2 by lia.
  destruct (decide (r = [])) as [->|Hr]; [by left|].
  destruct (scan_outcome c r Hc Hr)
    as [->|(i & s & Hscan & Hdrop & _)]; [by right|].
  rewrite Hscan. simpl. rewrite Hdrop. simpl. apply IH.
  - eapply Poke.head_next; eauto. lia.
  - rewrite length_app. simpl. lia.
Qed.

(** A run of the [poke.py] loop that returns is a run of the [poke_ui.py]
    loop, on any frame. *)
Lemma poke_while_ui (df : DataFrame) (fuel : nat) c r last x :
  Poke.while fuel df k type_bonus c r last = Return x →
  PokeUi.while fuel df k type_bonus c r last = Return x.
Proof.
  revert c r last. induction fuel as [|fuel IH]; intros c r last; [done|].
  simpl. destruct (bool_decide (Z.of_nat (length c) < k)%Z); simpl; [|done].
  change PokeUi.scan with Poke.scan.
  destruct r as [|p r]; [done|]. simpl PokeUi.empty. cbv beta iota.
  destruct (Poke.scan df type_bonus c (p :: r) None NegInf)
    as [[[i|] best]| |]; simpl; try done.
  destruct (drop_label (p :: r) i); simpl; try done. apply IH.
Qed.

End selection.

(** ** The selectors on a pool *)

Section greedy_team.
Context (pool : list Row) (k type_bonus : Z).

(** [poke_ui.py]: a selection that returns gives the labels of a team of
    min(k, |pool|) entities, and leaves the loop in one of its states. *)
Lemma ui_select_inv (c : list nat) (last : option ext) :
  PokeUi.select (reset_index pool) k type_bonus = Return (c, last) →
  ∃ r,
    PokeUi.head (reset_index pool) k type_bonus c r last ∧
    (¬ (Z.of_nat (length c) < k)%Z ∨ r = []) ∧
    length c = Z.to_nat k `min` length pool.
Proof.
  intros Hsel.
  destruct (ui_while_inv pool k type_bonus _ [] (reset_index pool) None c last
              (PokeUi.head_init _ _ _) Hsel) as (r & Hhead & Hexit).
  exists r. split_and!; try done.
  destruct (ui_head_facts _ _ _ _ _ _ Hhead) as (Hc & Hlen & _).
  apply consistent_length in Hc.
  destruct Hexit as [?| ->]; [lia|]. simpl in Hc. lia.
Qed.

(** Within the range of the bonus the selection of [poke_ui.py] returns. *)
Lemma ui_select_run :
  bonus_fits type_bonus (length pool) →
  ∃ c last, PokeUi.select (reset_index pool) k type_bonus = Return (c, last).
Proof.
  intros Hb.
  apply (ui_while_run pool k type_bonus (S (Z.to_nat k)) []
           (reset_index pool) None Hb); [constructor|simpl; lia].
Qed.

Lemma greedy_team_of_select (c : list nat) (r : DataFrame) (last : option ext) :
  PokeUi.head (reset_index pool) k type_bonus c r last →
  loc (reset_index pool) c = Return (select_rows pool c) ∧
  length (select_rows pool c) = length c.
Proof.
  intros Hhead. destruct (ui_head_facts _ _ _ _ _ _ Hhead) as ((_ & Hlt & _) & _).
  split; [by apply loc_reset_index|by apply length_select_rows].
Qed.

(** The team of [poke_ui.py] on a pool: the rows at the labels with which
    the loop ended. *)
Lemma ui_greedy_team_inv (team : DataFrame) :
  PokeUi.greedy_team (reset_index pool) k type_bonus = Return team →
  ∃ c r last,
    PokeUi.select (reset_index pool) k type_bonus = Return (c, last) ∧
    PokeUi.head (reset_index pool) k type_bonus c r last ∧
    team = select_rows pool c ∧
    length c = Z.to_nat k `min` length pool.
Proof.
  unfold PokeUi.greedy_team. intros Hteam.
  destruct (PokeUi.select (reset_index pool) k type_bonus)
    as [[c last]| |] eqn:Hsel; [|done..].
  destruct (ui_select_inv c last Hsel) as (r & Hhead & _ & Hlen).
  destruct (greedy_team_of_select c r last Hhead) as [Hloc _].
  simpl in Hteam. rewrite Hloc in Hteam. injection Hteam as <-.
  by exists c, r, last.
Qed.

Lemma ui_greedy_team_returned_length (team : DataFrame) :
  PokeUi.greedy_team (reset_index pool) k type_bonus = Return team →
  length team = Z.to_nat k `min` length pool.
Proof.
  intros Hteam.
  destruct (ui_greedy_team_inv team Hteam) as (c & r & last & _ & Hhead & -> & <-).
  by apply (greedy_team_of_select c r last).
Qed.

(** Within the range of the bonus [poke_ui.py] returns a team. *)
Lemma ui_greedy_team_run :
  bonus_fits type_bonus (length pool) →
  ∃ team, PokeUi.greedy_team (reset_index pool) k type_bonus = Return team.
Proof.
  intros Hb. destruct (ui_select_run Hb) as (c & last & Hsel).
  destruct (ui_select_inv c last Hsel) as (r & Hhead & _).
  destruct (greedy_team_of_select c r last Hhead) as [Hloc _].
  exists (select_rows pool c). unfold PokeUi.greedy_team. by rewrite Hsel.
Qed.

(** With a team size within the pool [poke.py] does as [poke_ui.py]. *)
Lemma poke_select_eq :
  (k ≤ Z.of_nat (length pool))%Z →
  Poke.select (reset_index pool) k type_bonus
  = PokeUi.select (reset_index pool) k type_bonus.
Proof. intros Hkn. apply poke_while_eq; [done|constructor]. Qed.

Lemma poke_greedy_team_eq :
  (k ≤ Z.of_nat (length pool))%Z →
  Poke.greedy_team (reset_index pool) k type_bonus
  = PokeUi.greedy_team (reset_index pool) k type_bonus.
Proof.
  intros Hkn. unfold Poke.greedy_team, PokeUi.greedy_team.
  by rewrite poke_select_eq.
Qed.

(** [poke.py] with a team size beyond the pool raises [ValueError]. *)
Lemma poke_select_raise :
  (Z.of_nat (length pool) < k)%Z →
  bonus_fits type_bonus (length pool) →
  Poke.select (reset_index pool) k type_bonus = Raise ValueError.
Proof.
  intros Hkn Hb. unfold Poke.select.
  apply poke_while_raise; [done|done|constructor|simpl; lia].
Qed.

Lemma poke_greedy_team_raise :
  (Z.of_nat (length pool) < k)%Z →
  bonus_fits type_bonus (length pool) →
  Poke.greedy_team (reset_index pool) k type_bonus = Raise ValueError.
Proof.
  intros Hkn Hb. unfold Poke.greedy_team. by rewrite poke_select_raise.
Qed.

(** The outcomes of the two selectors, whatever the bonus. *)
Lemma ui_greedy_team_outcome :
  (∃ team, PokeUi.greedy_team (reset_index pool) k type_bonus = Return team) ∨
  PokeUi.greedy_team (reset_index pool) k type_bonus = Raise OverflowError.
Proof.
  unfold PokeUi.greedy_team.
  destruct (ui_while_outcome pool k type_bonus (S (Z.to_nat k)) []
              (reset_index pool) None) as [(c & last & Hsel)|Hsel];
    [constructor|simpl; lia| |].
  - fold (PokeUi.select (reset_index pool) k type_bonus) in Hsel.
    destruct (ui_select_inv c last Hsel) as (r & Hhead & _).
    destruct (greedy_team_of_select c r last Hhead) as [Hloc _].
    left. exists (select_rows pool c). by rewrite Hsel.
  - fold (PokeUi.select (reset_index pool) k type_bonus) in Hsel.
    right. by rewrite Hsel.
Qed.

Lemma poke_greedy_team_outcome :
  (Z.of_nat (length pool) < k)%Z →
  Poke.greedy_team (reset_index pool) k type_bonus = Raise ValueError ∨
  Poke.greedy_team (reset_index pool) k type_bonus = Raise OverflowError.
Proof.
  intros Hkn. unfold Poke.greedy_team, Poke.select.
  destruct (poke_while_outcome pool k type_bonus (S (Z.to_nat k)) []
              (reset_index pool) None Hkn) as [->| ->];
    [constructor|simpl; lia|by left|by right].
Qed.

End greedy_team.

(** A team [poke.py] returns is the team [poke_ui.py] returns, on any
    frame. *)
Lemma poke_greedy_team_return_ui (df : DataFrame) (k type_bonus : Z)
    (team : DataFrame) :
  Poke.greedy_team df k type_bonus = Return team →
  PokeUi.greedy_team df k type_bonus = Return team.
Proof.
  unfold Poke.greedy_team, PokeUi.greedy_team. intros Hteam.
  destruct (Poke.select df k type_bonus) as [x| |] eqn:HP; [|done..].
  apply poke_while_ui in HP. fold (PokeUi.select df k type_bonus) in HP.
  by rewrite HP.
Qed.

Lemma bonus_fits_nil (type_bonus : Z) : bonus_fits type_bonus 0.
Proof. unfold bonus_fits, in_int64. simpl. lia. Qed.

Lemma select_rows_labels (pool : list Row) (labels : list nat) :
  Forall (λ i, i < length pool) labels → (select_rows pool labels).*1 = labels.
Proof.
  induction 1 as [|i ls Hi _ IH]; [done|].
  apply lookup_lt_is_Some_2 in Hi as [x Hx].
  unfold select_rows in *. simpl. rewrite Hx. simpl. f_equal. exact IH.
Qed.

Lemma elem_of_select_rows (pool : list Row) (labels : list nat) i x :
  (i, x) ∈ select_rows pool labels ↔ i ∈ labels ∧ pool !! i = Some x.
Proof.
  unfold select_rows. rewrite list_elem_of_omap. split.
  - intros (j & Hj & Hx). destruct (pool !! j) eqn:Hpj; simplify_eq/=. done.
  - intros [Hi Hx]. exists i. by rewrite Hx.
Qed.

(** The team over all the labels of the pool is the pool. *)
Lemma select_rows_all (pool : list Row) (labels : list nat) :
  labels ≡ₚ seq 0 (length pool) → select_rows pool labels ≡ₚ reset_index pool.
Proof.
  intros HP.
  assert (Forall (λ i, i < length pool) labels) as Hlt.
  { rewrite HP. apply Forall_seq. lia. }
  apply NoDup_Permutation.
  - apply (NoDup_fmap_1 fst). rewrite select_rows_labels by done.
    rewrite HP. apply NoDup_seq.
  - apply (NoDup_fmap_1 fst). rewrite reset_index_labels. apply NoDup_seq.
  - intros [i x]. rewrite elem_of_select_rows, elem_of_reset_index, HP, elem_of_seq.
    split; [by intros []|]. intros Hx. split; [|done].
    apply lookup_lt_Some in Hx. lia.
Qed.


(** ** The claims about the selector *)

(** C1 — Size contract: [greedy_team] returns a team of exactly
    min(k, |pool|) entities when k ≥ 0 and an empty team when k ≤ 0.
    Every team [poke_ui.py] returns has that size; it returns one for every
    pool and k unless the scorer raises [OverflowError], which it does not
    within the range of the bonus.  [poke.py] does so when k ≤ |pool|, and
    returns no team when k > |pool|: it raises [ValueError] (or the
    scorer's [OverflowError] before it).  So on the pool of three entities
    with k = 10, where [poke_ui.py] returns all three. *)
Theorem C1_size_contract :
  (∀ pool k type_bonus team,
     PokeUi.greedy_team (reset_index pool) k type_bonus = Return team →
     Z.of_nat (length team) = (0 `max` (k `min` Z.of_nat (length pool)))%Z) ∧
  (∀ pool k type_bonus,
     (∃ team,
        PokeUi.greedy_team (reset_index pool) k type_bonus = Return team) ∨
     PokeUi.greedy_team (reset_index pool) k type_bonus
     = Raise OverflowError) ∧
  (∀ pool k type_bonus,
     bonus_fits type_bonus (length pool) →
     ∃ team,
       PokeUi.greedy_team (reset_index pool) k type_bonus = Return team ∧
       Z.of_nat (length team)
       = (0 `max` (k `min` Z.of_nat (length pool)))%Z) ∧
  (∀ pool k type_bonus,
     bonus_fits type_bonus (length pool) →
     (k ≤ Z.of_nat (length pool))%Z →
     ∃ team,
       Poke.greedy_team (reset_index pool) k type_bonus = Return team ∧
       Z.of_nat (length team) = (0 `max` k)%Z) ∧
  (∀ pool k type_bonus,
     (Z.of_nat (length pool) < k)%Z →
     Poke.greedy_team (reset_index pool) k type_bonus = Raise ValueError ∨
     Poke.greedy_team (reset_index pool) k type_bonus
     = Raise OverflowError) ∧
  (∀ pool k type_bonus,
     bonus_fits type_bonus (length pool) →
     (Z.of_nat (length pool) < k)%Z →
     Poke.greedy_team (reset_index pool) k type_bonus = Raise ValueError) ∧
  Poke.greedy_team (reset_index [A; B; C]) 10 20 = Raise ValueError ∧
  PokeUi.greedy_team (reset_index [A; B; C]) 10 20
  = Return [(2, C); (0, A); (1, B)].
Proof.
  split_and!;
    [|apply ui_greedy_team_outcome| | |apply poke_greedy_team_outcome|
     |by vm_compute..].
  - intros pool k type_bonus team Hteam.
    apply ui_greedy_team_returned_length in Hteam. lia.
  - intros pool k type_bonus Hb.
    destruct (ui_greedy_team_run pool k type_bonus Hb) as (team & Hteam).
    exists team. split; [done|].
    apply ui_greedy_team_returned_length in Hteam. lia.
  - intros pool k type_bonus Hb Hk.
    destruct (ui_greedy_team_run pool k type_bonus Hb) as (team & Hteam).
    exists team. rewrite poke_greedy_team_eq by done. split; [done|].
    apply ui_greedy_team_returned_length in Hteam. lia.
  - intros pool k type_bonus Hb Hk. by apply poke_greedy_team_raise.
Qed.

(** C2 — No error on small pools: on an empty pool [greedy_team] returns an
    empty team, and with k beyond the pool size it returns a team covering
    the whole pool.  [poke_ui.py] does so for every pool and k, within the
    range of the bonus; [poke.py] raises [ValueError] on the empty pool with
    k = 6 (with every k ≥ 1, and on every pool smaller than k). *)
Theorem C2_small_pools_no_error :
  (∀ pool k type_bonus,
     bonus_fits type_bonus (length pool) →
     ∃ team,
       PokeUi.greedy_team (reset_index pool) k type_bonus = Return team ∧
       (pool = [] → team = []) ∧
       ((Z.of_nat (length pool) ≤ k)%Z → team ≡ₚ reset_index pool)) ∧
  (∀ k type_bonus,
     PokeUi.greedy_team (reset_index []) k type_bonus = Return []) ∧
  (∀ k type_bonus,
     (0 < k)%Z →
     Poke.greedy_team (reset_index []) k type_bonus = Raise ValueError) ∧
  (∀ pool k type_bonus,
     bonus_fits type_bonus (length pool) →
     (Z.of_nat (length pool) < k)%Z →
     Poke.greedy_team (reset_index pool) k type_bonus = Raise ValueError) ∧
  Poke.greedy_team (reset_index []) 6 20 = Raise ValueError.
Proof.
  assert (∀ pool k type_bonus,
            bonus_fits type_bonus (length pool) →
            ∃ team,
              PokeUi.greedy_team (reset_index pool) k type_bonus
              = Return team ∧
              (pool = [] → team = []) ∧
              ((Z.of_nat (length pool) ≤ k)%Z → team ≡ₚ reset_index pool))
    as Hui.
  { intros pool k type_bonus Hb.
    destruct (ui_greedy_team_run pool k type_bonus Hb) as (team & Hteam).
    exists team. split; [done|].
    destruct (ui_greedy_team_inv pool k type_bonus team Hteam)
      as (c & r & last & _ & Hhead & -> & Hlen).
    destruct (greedy_team_of_select pool k type_bonus c r last Hhead)
      as [_ Hrows].
    destruct (ui_head_facts _ _ _ _ _ _ Hhead) as (Hc & _ & _).
    split.
    - intros ->. simpl in Hlen. apply nil_length_inv.
      rewrite Hrows, Hlen. lia.
    - intros Hk. apply select_rows_all.
      pose proof (consistent_length pool c r Hc) as Hcr.
      assert (r = []) as -> by (apply nil_length_inv; lia).
      apply consistent_perm in Hc. simpl in Hc. by rewrite app_nil_r in Hc. }
  split_and!; [done| | | |by vm_compute].
  2: { intros k type_bonus Hk.
       by apply (poke_greedy_team_raise [] k type_bonus Hk),
         bonus_fits_nil. }
  2: { intros pool k type_bonus Hb Hk. by apply poke_greedy_team_raise. }
  intros k type_bonus.
  destruct (Hui [] k type_bonus (bonus_fits_nil type_bonus))
    as (team & Hteam & Hnil & _).
  by rewrite Hteam, Hnil.
Qed.

(** C4 — The scenario of the specification: on the pool A (300, Fire),
    B (250, Water), C (400, Fire and Flying), with k = 2 and a type bonus
    of 20, [greedy_team] returns the team C, A in that order, and the score
    of that team is 740. *)
Theorem C4_scenario :
  Poke.greedy_team (reset_index [A; B; C]) 2 20 = Return [(2, C); (0, A)] ∧
  PokeUi.greedy_team (reset_index [A; B; C]) 2 20 = Return [(2, C); (0, A)] ∧
  Poke.team_score [(2, C); (0, A)] 20 = Return 740%Z ∧
  PokeUi.team_score [(2, C); (0, A)] 20 = Return 740%Z.
Proof. by vm_compute. Qed.

(** C10 — For every pool, every type bonus and every k with
    0 ≤ k ≤ |pool|, [greedy_team] of [poke.py] and [greedy_team] of
    [poke_ui.py] come to the same: within the range of the bonus they
    return the same team, the same entities in the same order, and beyond
    it they end in the same exception. *)
Theorem C10_same_team (pool : list Row) (k type_bonus : Z) :
  (0 ≤ k ≤ Z.of_nat (length pool))%Z →
  Poke.greedy_team (reset_index pool) k type_bonus
  = PokeUi.greedy_team (reset_index pool) k type_bonus ∧
  ((∃ team,
      Poke.greedy_team (reset_index pool) k type_bonus = Return team ∧
      PokeUi.greedy_team (reset_index pool) k type_bonus = Return team) ∨
   Poke.greedy_team (reset_index pool) k type_bonus = Raise OverflowError ∧
   PokeUi.greedy_team (reset_index pool) k type_bonus = Raise OverflowError) ∧
  (bonus_fits type_bonus (length pool) →
   ∃ team,
     Poke.greedy_team (reset_index pool) k type_bonus = Return team ∧
     PokeUi.greedy_team (reset_index pool) k type_bonus = Return team).
Proof.
  intros [_ Hk]. rewrite poke_greedy_team_eq by done. split_and!; [done| |].
  - destruct (ui_greedy_team_outcome pool k type_bonus)
      as [(team & Hteam)|Hraise]; [left; by exists team|by right].
  - intros Hb.
    destruct (ui_greedy_team_run pool k type_bonus Hb) as (team & Hteam).
    by exists team.
Qed.

Lemma C10_same_team_witness :
  Poke.greedy_team (reset_index [A; B; C]) 3 20
  = PokeUi.greedy_team (reset_index [A; B; C]) 3 20 ∧
  ((∃ team,
      Poke.greedy_team (reset_index [A; B; C]) 3 20 = Return team ∧
      PokeUi.greedy_team (reset_index [A; B; C]) 3 20 = Return team) ∨
   Poke.greedy_team (reset_index [A; B; C]) 3 20 = Raise OverflowError ∧
   PokeUi.greedy_team (reset_index [A; B; C]) 3 20 = Raise OverflowError) ∧
  (bonus_fits 20 (length [A; B; C]) →
   ∃ team,
     Poke.greedy_team (reset_index [A; B; C]) 3 20 = Return team ∧
     PokeUi.greedy_team (reset_index [A; B; C]) 3 20 = Return team).
Proof. apply (C10_same_team [A; B; C] 3 20). simpl. lia. Defined.

(** C5 — At every iteration of [greedy_team] (a state of the loop with
    candidates remaining, which are the entities of the pool not yet
    chosen), unless the scorer ends the scan in an [OverflowError], which
    it does not within the range of the bonus, the scan settles on, and the
    iteration appends, an entity whose candidate score is greatest among
    all remaining entities, and among those of that score the first in pool
    order; the score left in the best-score variable is its candidate
    score. *)
Theorem C5_first_best_candidate (pool : list Row) (k type_bonus : Z)
    (chosen_idx : list nat) (remaining : DataFrame) (last : option ext) :
  Poke.head (reset_index pool) k type_bonus chosen_idx remaining last ∨
  PokeUi.head (reset_index pool) k type_bonus chosen_idx remaining last →
  remaining ≠ [] →
  remaining = filter (λ p, p.1 ∉ chosen_idx) (reset_index pool) ∧
  (bonus_fits type_bonus (length pool) →
   Poke.scan (reset_index pool) type_bonus chosen_idx remaining None NegInf
   ≠ Raise OverflowError) ∧
  (Poke.scan (reset_index pool) type_bonus chosen_idx remaining None NegInf
   = Raise OverflowError ∧
   PokeUi.scan (reset_index pool) type_bonus chosen_idx remaining None NegInf
   = Raise OverflowError ∨
   ∃ i s,
     Poke.scan (reset_index pool) type_bonus chosen_idx remaining None NegInf
     = Return (Some i, Int s) ∧
     PokeUi.scan (reset_index pool) type_bonus chosen_idx remaining None NegInf
     = Return (Some i, Int s) ∧
     drop_label remaining i = Return (filter (λ p, p.1 ≠ i) remaining) ∧
     ((Z.of_nat (length chosen_idx) < k)%Z →
      ∀ fuel,
        Poke.while (S fuel) (reset_index pool) k type_bonus
          chosen_idx remaining last
        = Poke.while fuel (reset_index pool) k type_bonus
            (chosen_idx ++ [i]) (filter (λ p, p.1 ≠ i) remaining)
            (Some (Int s)) ∧
        PokeUi.while (S fuel) (reset_index pool) k type_bonus
          chosen_idx remaining last
        = PokeUi.while fuel (reset_index pool) k type_bonus
            (chosen_idx ++ [i]) (filter (λ p, p.1 ≠ i) remaining)
            (Some (Int s))) ∧
     i < length pool ∧ (i ∉ chosen_idx) ∧
     candidate_score pool type_bonus chosen_idx i = Return s ∧
     ∀ j, j < length pool → j ∉ chosen_idx →
       ∃ sj,
         candidate_score pool type_bonus chosen_idx j = Return sj ∧
         (sj ≤ s)%Z ∧ (sj = s → i ≤ j)).
Proof.
  intros Hhead Hne.
  assert (PokeUi.head (reset_index pool) k type_bonus chosen_idx remaining last)
    as Hui by (destruct Hhead; [by apply poke_head_ui|done]).
  destruct (ui_head_facts _ _ _ _ _ _ Hui) as (Hc & _ & _).
  split_and!; [apply Hc|by apply scan_returns|].
  change PokeUi.scan with Poke.scan.
  destruct (scan_outcome pool type_bonus chosen_idx remaining Hc Hne)
    as [Hraise|(i & s & Hscan & Hdrop & Hin & Hs & Hbest)]; [by left|right].
  apply (consistent_elem_of pool chosen_idx remaining i Hc) in Hin as [Hi Hic].
  exists i, s. split_and!; try done.
  - intros Hk fuel. split; simpl; rewrite bool_decide_eq_true_2 by done.
    + rewrite Hscan. simpl. by rewrite Hdrop.
    + rewrite (proj2 (empty_false remaining) Hne). simpl.
      change PokeUi.scan with Poke.scan. rewrite Hscan. simpl.
      by rewrite Hdrop.
  - intros j Hj Hjc. apply Hbest.
    by apply (consistent_elem_of pool chosen_idx remaining j Hc).
Qed.

Lemma C5_first_best_candidate_witness :
  reset_index [A; B; C]
  = filter (λ p, p.1 ∉ @nil nat) (reset_index [A; B; C]) ∧
  (bonus_fits 20 (length [A; B; C]) →
   Poke.scan (reset_index [A; B; C]) 20 [] (reset_index [A; B; C]) None NegInf
   ≠ Raise OverflowError) ∧
  (Poke.scan (reset_index [A; B; C]) 20 [] (reset_index [A; B; C]) None NegInf
   = Raise OverflowError ∧
   PokeUi.scan (reset_index [A; B; C]) 20 [] (reset_index [A; B; C])
     None NegInf
   = Raise OverflowError ∨
   ∃ i s,
     Poke.scan (reset_index [A; B; C]) 20 [] (reset_index [A; B; C])
       None NegInf
     = Return (Some i, Int s) ∧
     PokeUi.scan (reset_index [A; B; C]) 20 [] (reset_index [A; B; C])
       None NegInf
     = Return (Some i, Int s) ∧
     drop_label (reset_index [A; B; C]) i
     = Return (filter (λ p, p.1 ≠ i) (reset_index [A; B; C])) ∧
     ((Z.of_nat (length (@nil nat)) < 2)%Z →
      ∀ fuel,
        Poke.while (S fuel) (reset_index [A; B; C]) 2 20
          [] (reset_index [A; B; C]) None
        = Poke.while fuel (reset_index [A; B; C]) 2 20
            ([] ++ [i]) (filter (λ p, p.1 ≠ i) (reset_index [A; B; C]))
            (Some (Int s)) ∧
        PokeUi.while (S fuel) (reset_index [A; B; C]) 2 20
          [] (reset_index [A; B; C]) None
        = PokeUi.while fuel (reset_index [A; B; C]) 2 20
            ([] ++ [i]) (filter (λ p, p.1 ≠ i) (reset_index [A; B; C]))
            (Some (Int s))) ∧
     i < length [A; B; C] ∧ (i ∉ @nil nat) ∧
     candidate_score [A; B; C] 20 [] i = Return s ∧
     ∀ j, j < length [A; B; C] → j ∉ @nil nat →
       ∃ sj,
         candidate_score [A; B; C] 20 [] j = Return sj ∧
         (sj ≤ s)%Z ∧ (sj = s → i ≤ j)).
Proof.
  apply (C5_first_best_candidate [A; B; C] 2 20 [] (reset_index [A; B; C]) None).
  - left. apply Poke.head_init.
  - discriminate.
Defined.

(** The last step to a loop state with a team that is not empty. *)
Lemma ui_head_last (df : DataFrame) (k type_bonus : Z) (c : list nat)
    (r : DataFrame) (last : option ext) :
  PokeUi.head df k type_bonus c r last →
  c ≠ [] →
  ∃ c0 r0 last0 i best,
    c = c0 ++ [i] ∧ last = Some best ∧
    PokeUi.head df k type_bonus c0 r0 last0 ∧
    PokeUi.scan df type_bonus c0 r0 None NegInf = Return (Some i, best).
Proof.
  destruct 1 as [|c0 r0 last0 i best r' Hhead Hk Hne Hscan Hdrop]; [done|].
  intros _. by exists c0, r0, last0, i, best.
Qed.

(** [poke_ui.py]: the score of the team returned is the best score of the
    scan of the last iteration. *)
Lemma ui_rescoring (pool : list Row) (k type_bonus : Z) :
  (1 ≤ k)%Z →
  pool ≠ [] →
  bonus_fits type_bonus (length pool) →
  ∃ c0 r0 last0 i s team,
    PokeUi.head (reset_index pool) k type_bonus c0 r0 last0 ∧
    PokeUi.scan (reset_index pool) type_bonus c0 r0 None NegInf
    = Return (Some i, Int s) ∧
    PokeUi.select (reset_index pool) k type_bonus
    = Return (c0 ++ [i], Some (Int s)) ∧
    PokeUi.greedy_team (reset_index pool) k type_bonus = Return team ∧
    PokeUi.team_score team type_bonus = Return s.
Proof.
  intros Hk Hpool Hb.
  destruct (ui_select_run pool k type_bonus Hb) as (c & last & Hsel).
  destruct (ui_select_inv pool k type_bonus c last Hsel)
    as (r & Hhead & _ & Hlen).
  destruct (greedy_team_of_select pool k type_bonus c r last Hhead)
    as [Hloc _].
  assert (c ≠ []) as Hc.
  { intros ->. destruct pool; [done|]. simpl in Hlen. lia. }
  destruct (ui_head_facts _ _ _ _ _ _ Hhead)
    as (_ & _ & [[-> _]|(_ & s & -> & Hs)]); [done|].
  destruct (ui_head_last _ _ _ _ _ _ Hhead Hc)
    as (c0 & r0 & last0 & i & best & -> & [= <-] & Hhead0 & Hscan).
  exists c0, r0, last0, i, s, (select_rows pool (c0 ++ [i])).
  split_and!; try done.
  unfold PokeUi.greedy_team. by rewrite Hsel.
Qed.

(** C8 — Re-scoring: for a pool that is not empty and k ≥ 1, the score of
    the team [greedy_team] returns is the best candidate score of the scan
    of the last iteration of the selection loop.  Within the range of the
    bonus [poke_ui.py] returns such a team for every pool and k, and
    [poke.py] for k ≤ |pool|; on the pool of the single entity A with k = 2
    [poke.py] returns no team but raises [ValueError]. *)
Theorem C8_rescoring :
  (∀ pool k type_bonus,
     (1 ≤ k)%Z →
     pool ≠ [] →
     bonus_fits type_bonus (length pool) →
     ∃ c0 r0 last0 i s team,
       PokeUi.head (reset_index pool) k type_bonus c0 r0 last0 ∧
       PokeUi.scan (reset_index pool) type_bonus c0 r0 None NegInf
       = Return (Some i, Int s) ∧
       PokeUi.select (reset_index pool) k type_bonus
       = Return (c0 ++ [i], Some (Int s)) ∧
       PokeUi.greedy_team (reset_index pool) k type_bonus = Return team ∧
       PokeUi.team_score team type_bonus = Return s) ∧
  (∀ pool k type_bonus,
     (1 ≤ k ≤ Z.of_nat (length pool))%Z →
     bonus_fits type_bonus (length pool) →
     ∃ c0 r0 last0 i s team,
       Poke.head (reset_index pool) k type_bonus c0 r0 last0 ∧
       Poke.scan (reset_index pool) type_bonus c0 r0 None NegInf
       = Return (Some i, Int s) ∧
       Poke.select (reset_index pool) k type_bonus
       = Return (c0 ++ [i], Some (Int s)) ∧
       Poke.greedy_team (reset_index pool) k type_bonus = Return team ∧
       Poke.team_score team type_bonus = Return s) ∧
  Poke.select (reset_index [A]) 2 20 = Raise ValueError ∧
  Poke.greedy_team (reset_index [A]) 2 20 = Raise ValueError ∧
  PokeUi.greedy_team (reset_index [A]) 2 20 = Return [(0, A)].
Proof.
  split_and!; [apply ui_rescoring| |by vm_compute..].
  intros pool k type_bonus [Hk Hkn] Hb.
  assert (pool ≠ []) as Hpool by (intros ->; simpl in Hkn; lia).
  destruct (ui_rescoring pool k type_bonus Hk Hpool Hb)
    as (c0 & r0 & last0 & i & s & team & Hhead & Hscan & Hsel & Hteam & Hs).
  exists c0, r0, last0, i, s, team.
  rewrite poke_select_eq, poke_greedy_team_eq by done.
  split_and!; try done. by apply ui_head_poke.
Qed.

(** ** Scores that do not overflow *)

Lemma select_rows_app (pool : list Row) (l1 l2 : list nat) :
  select_rows pool (l1 ++ l2) = select_rows pool l1 ++ select_rows pool l2.
Proof. apply omap_app. Qed.

Lemma select_rows_single (pool : list Row) (j : nat) (y : Row) :
  pool !! j = Some y → select_rows pool [j] = [(j, y)].
Proof. intros Hj. unfold select_rows. simpl. by rewrite Hj. Qed.

Lemma select_rows_nonneg (pool : list Row) (labels : list nat) :
  Forall (λ x, 0 ≤ Total x)%Z pool →
  Forall (λ p, 0 ≤ Total p.2)%Z (select_rows pool labels).
Proof.
  intros Hpool. apply Forall_forall. intros [i x] [_ Hx]%elem_of_select_rows.
  apply (proj1 (Forall_forall _ _) Hpool). simpl.
  by apply list_elem_of_lookup_2 in Hx.
Qed.

(** Distinct labels of the pool select at most the fitness of the pool. *)
Lemma fitness_total_select_le (pool : list Row) (labels : list nat) :
  Forall (λ x, 0 ≤ Total x)%Z pool →
  NoDup labels →
  Forall (λ i, i < length pool) labels →
  length labels ≤ length pool ∧
  (fitness_total (select_rows pool labels)
   ≤ fitness_total (reset_index pool))%Z.
Proof.
  intros Hpool Hnd Hlt.
  assert (labels ⊆+ seq 0 (length pool)) as Hsub.
  { apply NoDup_submseteq; [done|]. intros i Hi. apply elem_of_seq.
    apply (proj1 (Forall_forall _ _) Hlt) in Hi. lia. }
  split.
  { apply submseteq_length in Hsub. by rewrite length_seq in Hsub. }
  apply submseteq_Permutation in Hsub as [rest Hrest].
  rewrite <- (fitness_total_perm _ _ (select_rows_all pool _ (reflexivity _))).
  assert (select_rows pool (seq 0 (length pool))
          ≡ₚ select_rows pool labels ++ select_rows pool rest) as HP.
  { rewrite <- select_rows_app. unfold select_rows. by rewrite Hrest. }
  rewrite (fitness_total_perm _ _ HP), fitness_total_app.
  pose proof (fitness_total_nonneg _ (select_rows_nonneg pool rest Hpool)).
  lia.
Qed.

Lemma no_overflow_bonus_fits (pool : list Row) (type_bonus : Z) :
  no_overflow pool type_bonus → bonus_fits type_bonus (length pool).
Proof.
  intros (Hpool & Hb & Hlt). unfold bonus_fits, in_int64.
  destruct (fitness_total_select_le pool [] Hpool) as [_ Hle];
    [constructor|constructor|]. simpl in Hle.
  assert (0 ≤ type_bonus * Z.of_nat (2 * length pool))%Z
    by (apply Z.mul_nonneg_nonneg; lia).
  lia.
Qed.

(** In a pool without overflow the score of a team of distinct entities is
    the specification's. *)
Lemma no_overflow_fits (pool : list Row) (type_bonus : Z)
    (labels : list nat) :
  no_overflow pool type_bonus →
  NoDup labels →
  Forall (λ i, i < length pool) labels →
  fits (select_rows pool labels) type_bonus.
Proof.
  intros (Hpool & Hb & Hlt) Hnd Hin.
  apply fits_nonneg; [done|by apply select_rows_nonneg|].
  destruct (fitness_total_select_le pool labels Hpool Hnd Hin) as [Hlen Hle].
  pose proof (distinct_categories_le (select_rows pool labels)) as Hm.
  rewrite length_select_rows in Hm by done.
  unfold spec_score.
  assert (type_bonus * Z.of_nat (distinct_categories (select_rows pool labels))
          ≤ type_bonus * Z.of_nat (2 * length pool))%Z
    by (apply Z.mul_le_mono_nonneg_l; lia).
  lia.
Qed.

(** The specification's score of a candidate, by what the candidate adds
    to the team so far. *)
Lemma candidate_spec (pool : list Row) (type_bonus : Z) (c : list nat)
    (j : nat) (y : Row) :
  pool !! j = Some y →
  spec_score (select_rows pool (c ++ [j])) type_bonus
  = (spec_score (select_rows pool c) type_bonus + Total y
     + type_bonus * Z.of_nat (new_categories (select_rows pool c) y))%Z.
Proof.
  intros Hj. rewrite select_rows_app, (select_rows_single pool j y Hj).
  rewrite (spec_score_perm _ ((j, y) :: select_rows pool c))
    by (symmetry; apply Permutation_cons_append).
  apply spec_score_cons.
Qed.

(** In a pool without overflow the candidate scores of an iteration are the
    specification's. *)
Lemma score_exact (pool : list Row) (type_bonus : Z) (c : list nat)
    (r : DataFrame) (j : nat) :
  no_overflow pool type_bonus →
  consistent pool c r → j ∈ r.*1 →
  candidate_score pool type_bonus c j
  = Return (spec_score (select_rows pool (c ++ [j])) type_bonus).
Proof.
  intros Hno Hc Hj. pose proof Hc as (Hnd & Hlt & _).
  apply (consistent_elem_of pool c r j Hc) in Hj as [Hj Hjc].
  apply team_score_exact, no_overflow_fits; [done| |].
  - apply NoDup_app. split_and!; [done| |apply NoDup_singleton].
    intros i Hi ->%list_elem_of_singleton. done.
  - apply Forall_app. split; [done|]. by apply Forall_singleton.
Qed.

(** What the scan returns in a pool without overflow. *)
Lemma scan_exact (pool : list Row) (type_bonus : Z) (c : list nat)
    (r : DataFrame) (i : nat) (best : ext) :
  no_overflow pool type_bonus →
  consistent pool c r →
  Poke.scan (reset_index pool) type_bonus c r None NegInf
  = Return (Some i, best) →
  i ∈ r.*1 ∧
  best = Int (spec_score (select_rows pool (c ++ [i])) type_bonus) ∧
  ∀ j, j ∈ r.*1 →
    (spec_score (select_rows pool (c ++ [j])) type_bonus
     ≤ spec_score (select_rows pool (c ++ [i])) type_bonus)%Z ∧
    (spec_score (select_rows pool (c ++ [j])) type_bonus
     = spec_score (select_rows pool (c ++ [i])) type_bonus → i ≤ j).
Proof.
  intros Hno Hc Hscan.
  assert (r ≠ []) as Hne by (intros ->; done).
  destruct (scan_outcome pool type_bonus c r Hc Hne)
    as [Hraise|(i' & s & Hscan' & _ & Hin & Hs & Hbest)]; [congruence|].
  rewrite Hscan' in Hscan. injection Hscan as -> <-.
  rewrite (score_exact pool type_bonus c r i Hno Hc Hin) in Hs.
  injection Hs as <-. split_and!; try done.
  intros j Hj. destruct (Hbest j Hj) as (sj & Hsj & Hle & Htie).
  rewrite (score_exact pool type_bonus c r j Hno Hc Hj) in Hsj.
  injection Hsj as <-. done.
Qed.

(** ** Selection without a type bonus *)

#[global] Instance outranks_trans (pool : list Row) : Transitive (outranks pool).
Proof. intros i j l. unfold outranks. lia. Qed.

#[global] Instance outranks_total (pool : list Row) :
  base.Total (outranks pool).
Proof. intros i j. unfold outranks. lia. Qed.

#[global] Instance outranks_antisymm (pool : list Row) :
  AntiSymm (=) (outranks pool).
Proof. intros i j. unfold outranks. lia. Qed.

(** Without a bonus the specification's score of a candidate is the fitness
    of the team so far plus the candidate's. *)
Lemma candidate_spec_zero (pool : list Row) (c : list nat) (j : nat) :
  j < length pool →
  spec_score (select_rows pool (c ++ [j])) 0
  = (spec_score (select_rows pool c) 0 + fitness pool j)%Z.
Proof.
  intros Hj. apply lookup_lt_is_Some_2 in Hj as [y Hy].
  rewrite (candidate_spec pool 0 c j y Hy). unfold fitness. rewrite Hy.
  simpl. lia.
Qed.

Section zero_bonus.
Context (pool : list Row) (k : Z).
Hypothesis pool_no_overflow : no_overflow pool 0.

(** At the loop head the chosen labels are in rank order, and each of them
    outranks every label not chosen. *)
Lemma ui_head_ranked c r last :
  PokeUi.head (reset_index pool) k 0 c r last →
  StronglySorted (outranks pool) c ∧
  ∀ i j, i ∈ c → j < length pool → j ∉ c → outranks pool i j.
Proof.
  induction 1 as [|c r last i best r' Hhead [Hsorted Hrank] Hk Hne Hscan Hdrop].
  { split; [constructor|]. intros i j Hi. by apply elem_of_nil in Hi. }
  destruct (ui_head_facts _ _ _ _ _ _ Hhead) as (Hc & _ & _).
  change PokeUi.scan with Poke.scan in Hscan.
  destruct (scan_exact pool 0 c r i best pool_no_overflow Hc Hscan)
    as (Hin & _ & Hbest).
  apply (consistent_elem_of pool c r i Hc) in Hin as [Hi Hic].
  split.
  - apply StronglySorted_app_2; [|done|repeat constructor].
    intros x1 x2 Hx1 ->%list_elem_of_singleton. by apply Hrank.
  - intros i1 j [Hi1| ->%list_elem_of_singleton]%elem_of_app Hj Hjc;
      apply not_elem_of_app in Hjc as [Hjc Hji].
    + by apply Hrank.
    + destruct (Hbest j) as [Hle Htie].
      { by apply (consistent_elem_of pool c r j Hc). }
      rewrite !candidate_spec_zero in Hle, Htie by done.
      unfold outranks.
      destruct (decide (fitness pool j = fitness pool i)) as [Heq|Hneq].
      * right. split; [done|]. apply Htie. lia.
      * left. lia.
Qed.

(** Labels in rank order that outrank all the others are the first labels
    of the pool sorted by rank. *)
Lemma ranked_prefix c r :
  consistent pool c r →
  StronglySorted (outranks pool) c →
  (∀ i j, i ∈ c → j < length pool → j ∉ c → outranks pool i j) →
  c = take (length c) (merge_sort (outranks pool) (seq 0 (length pool))).
Proof.
  intros Hc Hsorted Hrank.
  assert (c ++ merge_sort (outranks pool) r.*1
          = merge_sort (outranks pool) (seq 0 (length pool))) as <-.
  { apply (StronglySorted_unique (outranks pool)).
    - apply StronglySorted_app_2; [|done|].
      + intros i j Hi Hj. rewrite merge_sort_Permutation in Hj.
        apply (consistent_elem_of pool c r j Hc) in Hj as [Hj Hjc].
        by apply Hrank.
      + apply StronglySorted_merge_sort; apply _.
    - apply StronglySorted_merge_sort; apply _.
    - rewrite !merge_sort_Permutation. by apply consistent_perm. }
  by rewrite take_app_length.
Qed.

Lemma ui_greedy_team_zero :
  PokeUi.greedy_team (reset_index pool) k 0 = Return (top_k pool k).
Proof.
  destruct (ui_greedy_team_run pool k 0
              (no_overflow_bonus_fits pool 0 pool_no_overflow))
    as (team & Hteam).
  rewrite Hteam.
  destruct (ui_greedy_team_inv pool k 0 team Hteam)
    as (c & r & last & _ & Hhead & -> & Hlen).
  destruct (ui_head_facts _ _ _ _ _ _ Hhead) as (Hc & _ & _).
  destruct (ui_head_ranked c r last Hhead) as [Hsorted Hrank].
  unfold top_k. by rewrite <- Hlen, <- (ranked_prefix c r).
Qed.

Lemma poke_greedy_team_zero :
  (k ≤ Z.of_nat (length pool))%Z →
  Poke.greedy_team (reset_index pool) k 0 = Return (top_k pool k).
Proof.
  intros Hkn. rewrite poke_greedy_team_eq by done. apply ui_greedy_team_zero.
Qed.

End zero_bonus.

(** C9 — With a type bonus of 0, fitness values that are not negative and
    add up to less than 2^63, [greedy_team] returns the min(k, |pool|)
    entities of greatest fitness, in descending order of fitness, equal
    values in pool order.  [poke_ui.py] does so for every such pool and
    every k, [poke.py] when k ≤ |pool|; on the pool of the single entity A
    with k = 2, where the claim names the team of A alone, [poke.py] raises
    [ValueError]. *)
Theorem C9_zero_bonus_top_k :
  (∀ pool k,
     no_overflow pool 0 →
     PokeUi.greedy_team (reset_index pool) k 0 = Return (top_k pool k)) ∧
  (∀ pool k,
     no_overflow pool 0 →
     (k ≤ Z.of_nat (length pool))%Z →
     Poke.greedy_team (reset_index pool) k 0 = Return (top_k pool k)) ∧
  top_k [A] 2 = [(0, A)] ∧
  PokeUi.greedy_team (reset_index [A]) 2 0 = Return [(0, A)] ∧
  Poke.greedy_team (reset_index [A]) 2 0 = Raise ValueError.
Proof.
  split_and!;
    [apply ui_greedy_team_zero|apply poke_greedy_team_zero|by vm_compute..].
Qed.

(** The order on a pool with equal fitness values, and both selectors on
    it. *)
Example top_k_ties :
  let pool := [B; A; mon "D" "Grass" None 300; C; mon "E" "Ice" None 400] in
  top_k pool 4 = [(3, C); (4, mon "E" "Ice" None 400); (1, A);
                  (2, mon "D" "Grass" None 300)] ∧
  PokeUi.greedy_team (reset_index pool) 4 0 = Return (top_k pool 4) ∧
  Poke.greedy_team (reset_index pool) 4 0 = Return (top_k pool 4).
Proof. by vm_compute. Qed.

(** A team size below zero: both loops are left at once. *)
Example negative_team_size :
  Poke.greedy_team (reset_index [A; B; C]) (-1) 20 = Return [] ∧
  PokeUi.greedy_team (reset_index [A; B; C]) (-1) 20 = Return [].
Proof. by vm_compute. Qed.

(** With fitness values that overflow the selection does not follow the
    fitness: the sum of P and Q wraps around below that of P and A. *)
Example overflow_breaks_order :
  PokeUi.greedy_team (reset_index [P; Q; A]) 2 0 = Return [(0, P); (2, A)] ∧
  top_k [P; Q; A] 2 = [(0, P); (1, Q)].
Proof. by vm_compute. Qed.

(** ** Loading and filtering the data set *)

Lemma append_cons (a : Ascii.ascii) (s t : string) :
  String a s +:+ t = String a (s +:+ t).
Proof. reflexivity. Qed.

Lemma prefix_spec (pat s : string) :
  String.prefix pat s = true ↔ ∃ post, s = pat +:+ post.
Proof.
  revert s. induction pat as [|a pat IH]; intros s.
  - split; [intros _; by exists s|]. intros _. by destruct s.
  - destruct s as [|b s]; simpl.
    + split; [done|]. intros [post Hpost]. by rewrite append_cons in Hpost.
    + destruct (Ascii.ascii_dec a b) as [->|Hne].
      * rewrite IH. split; intros [post Hpost]; exists post;
          rewrite append_cons in *; congruence.
      * split; [done|]. intros [post Hpost].
        rewrite append_cons in Hpost. congruence.
Qed.

Lemma contains_nil (pat : string) : contains pat "" = String.prefix pat "".
Proof. unfold contains. apply orb_false_r. Qed.

Lemma contains_cons (pat : string) (a : Ascii.ascii) (s : string) :
  contains pat (String a s)
  = String.prefix pat (String a s) || contains pat s.
Proof. reflexivity. Qed.

Lemma contains_spec (pat s : string) :
  contains pat s = true ↔ occurs_in pat s.
Proof.
  unfold occurs_in. induction s as [|a s IH].
  - rewrite contains_nil, prefix_spec. split.
    + intros [post ->]. by exists "", post.
    + intros (pre & post & Heq). destruct pre; [by exists post|].
      by rewrite append_cons in Heq.
  - rewrite contains_cons, orb_true_iff, prefix_spec, IH. split.
    + intros [[post ->]|(pre & post & ->)].
      * by exists "", post.
      * by exists (String a pre), post.
    + intros (pre & post & Heq). destruct pre as [|c pre].
      * left. by exists post.
      * right. exists pre, post. rewrite append_cons in Heq. congruence.
Qed.

Lemma imap_pair_rows (rows : list Row) (o : nat) :
  (imap (λ j, pair (o + j)) rows).*2 = rows.
Proof.
  revert o. induction rows as [|x rows IH]; intros o; simpl; [done|].
  f_equal. rewrite <- (IH (S o)) at 2. f_equal.
  apply imap_ext. intros j y _. simpl. f_equal. lia.
Qed.

Lemma reset_index_rows (rows : list Row) : (reset_index rows).*2 = rows.
Proof. apply (imap_pair_rows rows 0). Qed.

Lemma rows_filter (P : Row → Prop) (Q : nat * Row → Prop)
    `{!∀ x, Decision (P x), !∀ p, Decision (Q p)} (df : DataFrame) :
  (∀ p, Q p ↔ P p.2) → (filter Q df).*2 = filter P df.*2.
Proof.
  intros HPQ. induction df as [|[i x] df IH]; [done|].
  rewrite fmap_cons, !filter_cons. simpl snd.
  destruct (decide (Q (i, x))) as [HQ|HQ], (decide (P x)) as [HP|HP].
  - rewrite fmap_cons. simpl snd. f_equal. exact IH.
  - apply HPQ in HQ. done.
  - apply (HPQ (i, x)) in HP. done.
  - exact IH.
Qed.

Lemma contains_Mega_or_Primal_false (s : string) :
  contains_Mega_or_Primal s = false ↔
  ¬ occurs_in "Mega" s ∧ ¬ occurs_in "Primal" s.
Proof.
  unfold contains_Mega_or_Primal. rewrite orb_false_iff, <- !contains_spec.
  by rewrite !not_true_iff_false.
Qed.

Lemma keep_kept max_gen allow_mega allow_legendary (x : Row) :
  keep max_gen allow_mega allow_legendary x ↔
  kept max_gen allow_mega allow_legendary x.
Proof. unfold keep, kept. by rewrite contains_Mega_or_Primal_false. Qed.

Lemma load_data_same : PokeUi.load_data = Poke.load_data.
Proof. reflexivity. Qed.

(** The rows [load_data] returns are the rows read that pass the three
    tests, relabelled. *)
Lemma load_data_rows (csv : DataFrame) (max_gen : Z)
    (allow_mega allow_legendary : bool) :
  Poke.load_data csv max_gen allow_mega allow_legendary
  = reset_index (filter (keep max_gen allow_mega allow_legendary) csv.*2).
Proof.
  unfold Poke.load_data. f_equal.
  destruct allow_mega, allow_legendary; simpl;
    rewrite ?list_filter_filter; apply rows_filter; intros [i x];
    unfold keep; simpl; intuition congruence.
Qed.

Lemma filter_sublist_mono {X} (P Q : X → Prop)
    `{!∀ x, Decision (P x), !∀ x, Decision (Q x)} (l : list X) :
  (∀ x, P x → Q x) → filter P l `sublist_of` filter Q l.
Proof.
  intros HPQ. induction l as [|x l IH]; [done|]. rewrite !filter_cons.
  destruct (decide (P x)) as [HP|HP], (decide (Q x)) as [HQ|HQ].
  - by apply sublist_skip.
  - destruct HQ. by apply HPQ.
  - by apply sublist_cons.
  - done.
Qed.

(** X1 — [load_data] returns a frame labelled 0, 1, ..., n-1 whose rows are
    rows of the frame read, unchanged and in their original order. *)
Theorem X1_load_data_frame (csv : DataFrame) (max_gen : Z)
    (allow_mega allow_legendary : bool) :
  let df := Poke.load_data csv max_gen allow_mega allow_legendary in
  PokeUi.load_data csv max_gen allow_mega allow_legendary = df ∧
  df = reset_index df.*2 ∧
  df.*1 = seq 0 (length df) ∧
  df.*2 `sublist_of` csv.*2.
Proof.
  cbv zeta. change PokeUi.load_data with Poke.load_data.
  rewrite load_data_rows, reset_index_rows, reset_index_labels,
    length_reset_index.
  split_and!; try done. apply sublist_filter.
Qed.

(** X2 — A row is in the frame [load_data] returns exactly when it was read,
    its generation is at most [max_gen], its name has neither Mega nor
    Primal in it unless those are allowed, and it is not legendary unless
    those are allowed. *)
Theorem X2_load_data_rows (csv : DataFrame) (max_gen : Z)
    (allow_mega allow_legendary : bool) (x : Row) :
  (x ∈ (Poke.load_data csv max_gen allow_mega allow_legendary).*2 ↔
   x ∈ csv.*2 ∧ kept max_gen allow_mega allow_legendary x) ∧
  (x ∈ (PokeUi.load_data csv max_gen allow_mega allow_legendary).*2 ↔
   x ∈ csv.*2 ∧ kept max_gen allow_mega allow_legendary x).
Proof.
  change PokeUi.load_data with Poke.load_data.
  rewrite load_data_rows, reset_index_rows, list_elem_of_filter, keep_kept.
  split; tauto.
Qed.

(** X3 — Loosening the options only adds rows: with a generation ceiling at
    least as high and every option allowed before still allowed, the rows
    returned before are among the rows returned now, in the same order. *)
Theorem X3_load_data_monotone (csv : DataFrame) (max_gen max_gen' : Z)
    (allow_mega allow_mega' allow_legendary allow_legendary' : bool) :
  (max_gen ≤ max_gen')%Z →
  (allow_mega = true → allow_mega' = true) →
  (allow_legendary = true → allow_legendary' = true) →
  (Poke.load_data csv max_gen allow_mega allow_legendary).*2
    `sublist_of`
    (Poke.load_data csv max_gen' allow_mega' allow_legendary').*2 ∧
  (PokeUi.load_data csv max_gen allow_mega allow_legendary).*2
    `sublist_of`
    (PokeUi.load_data csv max_gen' allow_mega' allow_legendary').*2.
Proof.
  intros Hgen Hmega Hleg. change PokeUi.load_data with Poke.load_data.
  rewrite !load_data_rows, !reset_index_rows.
  split; apply filter_sublist_mono; intros x (Hx & Hm & Hl).
  all: split_and!; [lia| |].
  all: intros Hoff.
  - apply Hm. destruct allow_mega; [|done]. rewrite Hmega in Hoff; done.
  - apply Hl. destruct allow_legendary; [|done]. rewrite Hleg in Hoff; done.
  - apply Hm. destruct allow_mega; [|done]. rewrite Hmega in Hoff; done.
  - apply Hl. destruct allow_legendary; [|done]. rewrite Hleg in Hoff; done.
Qed.


Lemma X3_load_data_monotone_witness :
  (Poke.load_data (reset_index [A; B; C]) 1 false false).*2
    `sublist_of` (Poke.load_data (reset_index [A; B; C]) 6 true false).*2 ∧
  (PokeUi.load_data (reset_index [A; B; C]) 1 false false).*2
    `sublist_of` (PokeUi.load_data (reset_index [A; B; C]) 6 true false).*2.
Proof.
  apply (X3_load_data_monotone (reset_index [A; B; C]) 1 6
           false true false false); [lia|done|done].
Defined.


(** ** The team as a selection from the pool *)

(** X8 — No entity is picked twice, and every entity of the team is a row
    of the pool under its own label. *)
Theorem X8_team_distinct_rows_of_pool (pool : list Row) (k type_bonus : Z)
    (team : DataFrame) :
  Poke.greedy_team (reset_index pool) k type_bonus = Return team ∨
  PokeUi.greedy_team (reset_index pool) k type_bonus = Return team →
  NoDup team.*1 ∧ NoDup team ∧ ∀ p, p ∈ team → p ∈ reset_index pool.
Proof.
  intros Hteam.
  assert (PokeUi.greedy_team (reset_index pool) k type_bonus = Return team)
    as Hui by (destruct Hteam; [by apply poke_greedy_team_return_ui|done]).
  destruct (ui_greedy_team_inv pool k type_bonus team Hui)
    as (c & r & last & _ & Hhead & -> & _).
  destruct (ui_head_facts _ _ _ _ _ _ Hhead) as ((Hnd & Hlt & _) & _).
  assert (NoDup (select_rows pool c).*1) as Hlabels
    by (by rewrite select_rows_labels).
  split_and!; [done|by apply (NoDup_fmap_1 fst)|].
  intros [i x] [_ Hx]%elem_of_select_rows. by apply elem_of_reset_index.
Qed.

Lemma X8_team_distinct_rows_of_pool_witness :
  NoDup [(2, C); (0, A)].*1 ∧ NoDup [(2, C); (0, A)] ∧
  ∀ p, p ∈ [(2, C); (0, A)] → p ∈ reset_index [A; B; C].
Proof.
  apply (X8_team_distinct_rows_of_pool [A; B; C] 2 20). left. by vm_compute.
Defined.

Section growing.
Context (df : DataFrame) (type_bonus : Z).
Implicit Types (c : list nat) (r : DataFrame) (last : option ext).

(** A state of the loop for a team size is a state of the loop for every
    greater team size. *)
Lemma ui_head_mono (k k' : Z) c r last :
  (k ≤ k')%Z →
  PokeUi.head df k type_bonus c r last → PokeUi.head df k' type_bonus c r last.
Proof.
  intros Hk. induction 1; [constructor|].
  eapply PokeUi.head_next; eauto. lia.
Qed.

(** The run from the initial state passes through every state of the
    loop. *)
Lemma ui_while_from_head (k : Z) c r last :
  PokeUi.head df k type_bonus c r last →
  ∀ fuel,
    PokeUi.while (length c + fuel) df k type_bonus [] df None
    = PokeUi.while fuel df k type_bonus c r last.
Proof.
  induction 1 as [|c r last i best r' _ IH Hk Hne Hscan Hdrop]; intros fuel.
  { done. }
  rewrite length_app. simpl length.
  replace (length c + 1 + fuel) with (length c + S fuel) by lia.
  rewrite IH. simpl. rewrite bool_decide_eq_true_2 by done.
  rewrite Hne. simpl. rewrite Hscan. simpl. by rewrite Hdrop.
Qed.

(** The loop only appends. *)
Lemma ui_while_prefix (fuel : nat) (k : Z) c r last c' last' :
  PokeUi.while fuel df k type_bonus c r last = Return (c', last') →
  c `prefix_of` c'.
Proof.
  revert c r last. induction fuel as [|fuel IH]; intros c r last; [done|].
  simpl.
  destruct (bool_decide (Z.of_nat (length c) < k)%Z && negb (PokeUi.empty r)).
  - destruct (PokeUi.scan df type_bonus c r None NegInf)
      as [[[i|] best]| |]; simpl; try done.
    + destruct (drop_label r i); simpl; try done.
      intros Hrun. apply IH in Hrun. etrans; [|exact Hrun].
      by apply prefix_app_r.
    + by intros [= -> _].
  - by intros [= -> _].
Qed.

End growing.

(** The labels chosen for a team size begin the labels chosen for a greater
    one. *)
Lemma ui_select_prefix (pool : list Row) (k k' type_bonus : Z) c last c' last' :
  (k ≤ k')%Z →
  PokeUi.select (reset_index pool) k type_bonus = Return (c, last) →
  PokeUi.select (reset_index pool) k' type_bonus = Return (c', last') →
  c `prefix_of` c'.
Proof.
  intros Hk Hsel Hsel'.
  destruct (ui_select_inv pool k type_bonus c last Hsel) as (r & Hhead & _).
  destruct (ui_head_facts _ _ _ _ _ _ Hhead) as (_ & Hlen & _).
  apply (ui_head_mono _ _ k k') in Hhead; [|done].
  unfold PokeUi.select in Hsel'.
  replace (S (Z.to_nat k')) with (length c + (S (Z.to_nat k') - length c))
    in Hsel' by lia.
  rewrite (ui_while_from_head _ _ _ _ _ _ Hhead) in Hsel'.
  by apply ui_while_prefix in Hsel'.
Qed.

Lemma ui_greedy_team_prefix (pool : list Row) (k k' type_bonus : Z)
    (team team' : DataFrame) :
  (k ≤ k')%Z →
  PokeUi.greedy_team (reset_index pool) k type_bonus = Return team →
  PokeUi.greedy_team (reset_index pool) k' type_bonus = Return team' →
  team `prefix_of` team'.
Proof.
  intros Hk Hteam Hteam'.
  destruct (ui_greedy_team_inv pool k type_bonus team Hteam)
    as (c & r & last & Hsel & _ & -> & _).
  destruct (ui_greedy_team_inv pool k' type_bonus team' Hteam')
    as (c' & r' & last' & Hsel' & _ & -> & _).
  destruct (ui_select_prefix pool k k' type_bonus c last c' last' Hk Hsel Hsel')
    as [d ->].
  rewrite select_rows_app. by apply prefix_app_r.
Qed.

(** X9 — The selection is incremental: the team for a team size is the
    beginning of the team for any greater team size, so asking for more
    entities never changes the ones picked first. *)
Theorem X9_team_prefix (pool : list Row) (k k' type_bonus : Z)
    (team team' : DataFrame) :
  (k ≤ k')%Z →
  (PokeUi.greedy_team (reset_index pool) k type_bonus = Return team ∧
   PokeUi.greedy_team (reset_index pool) k' type_bonus = Return team') ∨
  (Poke.greedy_team (reset_index pool) k type_bonus = Return team ∧
   Poke.greedy_team (reset_index pool) k' type_bonus = Return team') →
  team `prefix_of` team'.
Proof.
  intros Hk [[Hteam Hteam']|[Hteam Hteam']].
  - by apply (ui_greedy_team_prefix pool k k' type_bonus).
  - apply poke_greedy_team_return_ui in Hteam, Hteam'.
    by apply (ui_greedy_team_prefix pool k k' type_bonus).
Qed.

Lemma X9_team_prefix_witness :
  [(2, C); (0, A)] `prefix_of` [(2, C); (0, A); (1, B)].
Proof.
  apply (X9_team_prefix [A; B; C] 2 3 20); [lia|].
  right. split; by vm_compute.
Defined.

(** ** The score of the selected team *)

Lemma spec_score_app_le (team extra : DataFrame) (type_bonus : Z) :
  (0 ≤ type_bonus)%Z →
  Forall (λ p, 0 ≤ Total p.2)%Z extra →
  (spec_score team type_bonus ≤ spec_score (team ++ extra) type_bonus)%Z.
Proof.
  intros Hb. induction 1 as [|p extra Hp _ IH]; [by rewrite app_nil_r|].
  rewrite <- (spec_score_perm _ _ type_bonus (Permutation_middle team extra p)).
  pose proof (spec_score_cons_le p (team ++ extra) type_bonus Hb). lia.
Qed.

(** In a pool without overflow the score of a returned team is the
    specification's. *)
Lemma ui_team_score_exact (pool : list Row) (k type_bonus : Z)
    (team : DataFrame) :
  no_overflow pool type_bonus →
  PokeUi.greedy_team (reset_index pool) k type_bonus = Return team →
  Poke.team_score team type_bonus = Return (spec_score team type_bonus).
Proof.
  intros Hno Hteam.
  destruct (ui_greedy_team_inv pool k type_bonus team Hteam)
    as (c & r & last & _ & Hhead & -> & _).
  destruct (ui_head_facts _ _ _ _ _ _ Hhead) as ((Hnd & Hlt & _) & _).
  by apply team_score_exact, no_overflow_fits.
Qed.

(** In a pool without overflow the scan of an iteration returns a remaining
    label of greatest specification score, the smallest such label. *)
Lemma scan_exact_run (pool : list Row) (type_bonus : Z) (c : list nat)
    (r : DataFrame) :
  no_overflow pool type_bonus →
  consistent pool c r → r ≠ [] →
  ∃ i,
    Poke.scan (reset_index pool) type_bonus c r None NegInf
    = Return (Some i,
              Int (spec_score (select_rows pool (c ++ [i])) type_bonus)) ∧
    i ∈ r.*1 ∧
    ∀ j, j ∈ r.*1 →
      (spec_score (select_rows pool (c ++ [j])) type_bonus
       ≤ spec_score (select_rows pool (c ++ [i])) type_bonus)%Z ∧
      (spec_score (select_rows pool (c ++ [j])) type_bonus
       = spec_score (select_rows pool (c ++ [i])) type_bonus → i ≤ j).
Proof.
  intros Hno Hc Hne.
  destruct (pick_spec pool type_bonus
              (λ j, spec_score (select_rows pool (c ++ [j])) type_bonus)
              c r Hc Hne) as (i & Hscan & _ & Hin & Hbest).
  { intros j Hj. by apply (score_exact pool type_bonus c r). }
  by exists i.
Qed.

(** X10 — In a pool whose scores do not overflow (fitness values and type
    bonus not negative, the fitness of the whole pool plus the bonus for two
    categories of every entity below 2^63), a greater team size never gives
    a team of lower score. *)
Theorem X10_score_grows_with_team_size (pool : list Row) (k k' type_bonus : Z)
    (team team' : DataFrame) :
  no_overflow pool type_bonus →
  (k ≤ k')%Z →
  (PokeUi.greedy_team (reset_index pool) k type_bonus = Return team ∧
   PokeUi.greedy_team (reset_index pool) k' type_bonus = Return team') ∨
  (Poke.greedy_team (reset_index pool) k type_bonus = Return team ∧
   Poke.greedy_team (reset_index pool) k' type_bonus = Return team') →
  ∃ s s',
    Poke.team_score team type_bonus = Return s ∧
    Poke.team_score team' type_bonus = Return s' ∧
    PokeUi.team_score team type_bonus = Return s ∧
    PokeUi.team_score team' type_bonus = Return s' ∧
    (s ≤ s')%Z.
Proof.
  intros Hno Hk Hteams.
  assert (PokeUi.greedy_team (reset_index pool) k type_bonus = Return team ∧
          PokeUi.greedy_team (reset_index pool) k' type_bonus = Return team')
    as [Hteam Hteam'].
  { destruct Hteams as [?|[? ?]]; [done|].
    split; by apply poke_greedy_team_return_ui. }
  pose proof (ui_team_score_exact pool k type_bonus team Hno Hteam) as Hs.
  pose proof (ui_team_score_exact pool k' type_bonus team' Hno Hteam') as Hs'.
  exists (spec_score team type_bonus), (spec_score team' type_bonus).
  change PokeUi.team_score with Poke.team_score. split_and!; try done.
  destruct (ui_greedy_team_prefix pool k k' type_bonus team team' Hk Hteam Hteam')
    as [extra ->].
  destruct (ui_greedy_team_inv pool k' type_bonus _ Hteam')
    as (c' & _ & _ & _ & _ & Heq & _).
  destruct Hno as (Hpool & Hb & _).
  apply spec_score_app_le; [done|].
  pose proof (select_rows_nonneg pool c' Hpool) as Hall.
  rewrite <- Heq in Hall. by apply Forall_app in Hall as [_ ?].
Qed.

Lemma X10_score_grows_with_team_size_witness :
  ∃ s s',
    Poke.team_score [(2, C); (0, A)] 20 = Return s ∧
    Poke.team_score [(2, C); (0, A); (1, B)] 20 = Return s' ∧
    PokeUi.team_score [(2, C); (0, A)] 20 = Return s ∧
    PokeUi.team_score [(2, C); (0, A); (1, B)] 20 = Return s' ∧
    (s ≤ s')%Z.
Proof.
  apply (X10_score_grows_with_team_size [A; B; C] 2 3 20).
  - split_and!; [repeat constructor; simpl; lia|lia|by vm_compute].
  - lia.
  - left. split; by vm_compute.
Defined.

(** A loop state with an empty team is the initial one. *)
Lemma ui_head_nil (df : DataFrame) (k type_bonus : Z) (r : DataFrame)
    (last : option ext) :
  PokeUi.head df k type_bonus [] r last → r = df ∧ last = None.
Proof.
  inversion 1 as [|c r0 last0 i best r' _ _ _ _ _ Heq]; [done|].
  by apply app_nil in Heq as [_ ?].
Qed.

(** The first label of a team is the one the scan of the whole frame
    settles on. *)
Lemma ui_head_first (df : DataFrame) (k type_bonus : Z) (c : list nat)
    (r : DataFrame) (last : option ext) :
  PokeUi.head df k type_bonus c r last →
  c ≠ [] →
  ∃ i d best,
    c = i :: d ∧
    PokeUi.scan df type_bonus [] df None NegInf = Return (Some i, best).
Proof.
  induction 1 as [|c r last i best r' Hhead IH Hk Hne Hscan Hdrop]; [done|].
  intros _. destruct c as [|i0 d].
  - apply ui_head_nil in Hhead as [-> _]. by exists i, [], best.
  - destruct IH as (i1 & d1 & best1 & [= <- <-] & Hscan1); [done|].
    by exists i0, (d ++ [i]), best1.
Qed.

(** X11 — In a pool whose scores do not overflow and with a team size of at
    least 1, the team scores at least as much as any single entity of the
    pool does alone. *)
Theorem X11_team_beats_every_single (pool : list Row) (k type_bonus : Z)
    (team : DataFrame) (j : nat) (x : Row) :
  no_overflow pool type_bonus →
  (1 ≤ k)%Z →
  pool !! j = Some x →
  Poke.greedy_team (reset_index pool) k type_bonus = Return team ∨
  PokeUi.greedy_team (reset_index pool) k type_bonus = Return team →
  ∃ s1 s,
    Poke.team_score [(j, x)] type_bonus = Return s1 ∧
    Poke.team_score team type_bonus = Return s ∧
    PokeUi.team_score [(j, x)] type_bonus = Return s1 ∧
    PokeUi.team_score team type_bonus = Return s ∧
    (s1 ≤ s)%Z.
Proof.
  intros Hno Hk Hj Hteam.
  assert (PokeUi.greedy_team (reset_index pool) k type_bonus = Return team)
    as Hui by (destruct Hteam; [by apply poke_greedy_team_return_ui|done]).
  pose proof (ui_team_score_exact pool k type_bonus team Hno Hui) as Hs.
  pose proof (lookup_lt_Some _ _ _ Hj) as Hjn.
  assert (Poke.team_score [(j, x)] type_bonus
          = Return (spec_score [(j, x)] type_bonus)) as Hs1.
  { rewrite <- (select_rows_single pool j x Hj).
    apply team_score_exact, no_overflow_fits;
      [done|apply NoDup_singleton|by apply Forall_singleton]. }
  exists (spec_score [(j, x)] type_bonus), (spec_score team type_bonus).
  change PokeUi.team_score with Poke.team_score. split_and!; try done.
  destruct (ui_greedy_team_inv pool k type_bonus team Hui)
    as (c & r & last & _ & Hhead & -> & Hlen).
  destruct (ui_head_first _ _ _ _ _ _ Hhead) as (i & d & best & -> & Hscan).
  { intros ->. simpl in Hlen. lia. }
  change PokeUi.scan with Poke.scan in Hscan.
  destruct (scan_exact pool type_bonus [] (reset_index pool) i best Hno
              (consistent_init pool) Hscan) as (_ & _ & Hbest).
  destruct (Hbest j) as [Hle _].
  { rewrite reset_index_labels. apply elem_of_seq. lia. }
  simpl app in Hle. rewrite (select_rows_single pool j x Hj) in Hle.
  change (i :: d) with ([i] ++ d). rewrite select_rows_app.
  destruct Hno as (Hpool & Hb & _).
  pose proof (spec_score_app_le (select_rows pool [i]) (select_rows pool d)
                type_bonus Hb (select_rows_nonneg pool d Hpool)).
  lia.
Qed.

Lemma X11_team_beats_every_single_witness :
  ∃ s1 s,
    Poke.team_score [(1, B)] 20 = Return s1 ∧
    Poke.team_score [(2, C); (0, A)] 20 = Return s ∧
    PokeUi.team_score [(1, B)] 20 = Return s1 ∧
    PokeUi.team_score [(2, C); (0, A)] 20 = Return s ∧
    (s1 ≤ s)%Z.
Proof.
  apply (X11_team_beats_every_single [A; B; C] 2 20 [(2, C); (0, A)] 1 B).
  - split_and!; [repeat constructor; simpl; lia|lia|by vm_compute].
  - lia.
  - reflexivity.
  - left. by vm_compute.
Defined.

(** X12 — Diversity comes first under a large bonus: in a pool whose scores
    do not overflow, when the type bonus exceeds every difference between
    two fitness values of the pool, the entity an iteration appends brings
    at least as many new categories to the team as any other remaining
    entity would. *)
Theorem X12_large_bonus_most_new_categories (pool : list Row)
    (k type_bonus : Z) (chosen_idx : list nat) (remaining : DataFrame)
    (last : option ext) :
  Poke.head (reset_index pool) k type_bonus chosen_idx remaining last ∨
  PokeUi.head (reset_index pool) k type_bonus chosen_idx remaining last →
  remaining ≠ [] →
  no_overflow pool type_bonus →
  (∀ i j, i < length pool → j < length pool →
     (fitness pool j - fitness pool i < type_bonus)%Z) →
  ∃ i x s,
    Poke.scan (reset_index pool) type_bonus chosen_idx remaining None NegInf
    = Return (Some i, Int s) ∧
    PokeUi.scan (reset_index pool) type_bonus chosen_idx remaining None NegInf
    = Return (Some i, Int s) ∧
    candidate_score pool type_bonus chosen_idx i = Return s ∧
    pool !! i = Some x ∧ (i ∉ chosen_idx) ∧
    ∀ j y, pool !! j = Some y → j ∉ chosen_idx →
      new_categories (select_rows pool chosen_idx) y
      ≤ new_categories (select_rows pool chosen_idx) x.
Proof.
  intros Hhead Hne Hno Hspread.
  assert (PokeUi.head (reset_index pool) k type_bonus chosen_idx remaining last)
    as Hui by (destruct Hhead; [by apply poke_head_ui|done]).
  destruct (ui_head_facts _ _ _ _ _ _ Hui) as (Hc & _ & _).
  destruct (scan_exact_run pool type_bonus chosen_idx remaining Hno Hc Hne)
    as (i & Hscan & Hin & Hbest).
  pose proof (score_exact pool type_bonus chosen_idx remaining i Hno Hc Hin)
    as Hsi.
  apply (consistent_elem_of pool chosen_idx remaining i Hc) in Hin as [Hi Hic].
  destruct (lookup_lt_is_Some_2 pool i Hi) as [x Hx].
  exists i, x, (spec_score (select_rows pool (chosen_idx ++ [i])) type_bonus).
  split_and!; try done.
  intros j y Hy Hjc. pose proof (lookup_lt_Some _ _ _ Hy) as Hj.
  destruct (Hbest j) as [Hle _].
  { by apply (consistent_elem_of pool chosen_idx remaining j Hc). }
  rewrite (candidate_spec pool type_bonus chosen_idx j y Hy),
    (candidate_spec pool type_bonus chosen_idx i x Hx) in Hle.
  pose proof (Hspread j i Hj Hi) as Hs. unfold fitness in Hs.
  rewrite Hx, Hy in Hs. simpl in Hs.
  revert Hle.
  generalize (new_categories (select_rows pool chosen_idx) y).
  generalize (new_categories (select_rows pool chosen_idx) x).
  intros nx ny Hle.
  destruct (decide (ny ≤ nx)) as [|Hgt]; [done|].
  assert (0 < type_bonus)%Z as Hpos
    by (pose proof (Hspread i i Hi Hi); lia).
  assert (type_bonus * (Z.of_nat nx + 1) ≤ type_bonus * Z.of_nat ny)%Z
    by (apply Z.mul_le_mono_nonneg_l; lia).
  lia.
Qed.

Lemma X12_large_bonus_most_new_categories_witness :
  ∃ i x s,
    Poke.scan (reset_index [A; B; C]) 200 [] (reset_index [A; B; C])
      None NegInf
    = Return (Some i, Int s) ∧
    PokeUi.scan (reset_index [A; B; C]) 200 [] (reset_index [A; B; C])
      None NegInf
    = Return (Some i, Int s) ∧
    candidate_score [A; B; C] 200 [] i = Return s ∧
    [A; B; C] !! i = Some x ∧ (i ∉ @nil nat) ∧
    ∀ j y, [A; B; C] !! j = Some y → j ∉ @nil nat →
      new_categories (select_rows [A; B; C] []) y
      ≤ new_categories (select_rows [A; B; C] []) x.
Proof.
  apply (X12_large_bonus_most_new_categories [A; B; C] 2 200 []
           (reset_index [A; B; C]) None).
  - left. apply Poke.head_init.
  - discriminate.
  - split_and!; [repeat constructor; simpl; lia|lia|by vm_compute].
  - intros i j Hi Hj. simpl in Hi, Hj.
    destruct i as [|[|[|i]]], j as [|[|[|j]]]; try lia; by vm_compute.
Defined.

(** ** The results table *)

Section table.
Import PokeUi.
Implicit Types (t : Table) (mon : Row).

Lemma setItem_rowCount row column text t :
  rowCount (setItem row column text t) = rowCount t.
Proof. unfold setItem. by destruct (decide _). Qed.

Lemma setItem_lookup row column text t r c :
  row < rowCount t → column < columnCount →
  items (setItem row column text t) !! (r, c)
  = if decide (r = row ∧ c = column) then Some text else items t !! (r, c).
Proof.
  intros Hrow Hcol. unfold setItem. rewrite decide_True by done. simpl.
  destruct (decide (r = row ∧ c = column)) as [[-> ->]|Hne].
  - apply lookup_insert_eq.
  - apply lookup_insert_ne. intros [= <- <-]. by apply Hne.
Qed.

Lemma populate_row_rowCount t row_idx mon :
  rowCount (populate_row t row_idx mon) = rowCount t.
Proof. unfold populate_row. by rewrite !setItem_rowCount. Qed.

Lemma populate_row_lookup t row_idx mon r c :
  row_idx < rowCount t → c < columnCount →
  items (populate_row t row_idx mon) !! (r, c)
  = if decide (r = row_idx) then display mon c else items t !! (r, c).
Proof.
  intros Hrow Hc. unfold populate_row, columnCount in *.
  rewrite !setItem_lookup by (rewrite ?setItem_rowCount; unfold columnCount; lia).
  destruct (decide (r = row_idx)) as [->|Hne].
  - destruct c as [|[|[|[|c]]]]; simpl; try lia;
      repeat (case_decide; try lia; try done);
      unfold str_Type_2; by destruct (Type_2 mon).
  - repeat (case_decide; try lia). done.
Qed.

Lemma populate_rows_rowCount t row_idx rows :
  rowCount (populate_rows t row_idx rows) = rowCount t.
Proof.
  revert t row_idx. induction rows as [|mon rows IH]; intros t row_idx; [done|].
  simpl. by rewrite IH, populate_row_rowCount.
Qed.

Lemma populate_rows_lookup t row_idx rows r c :
  row_idx + length rows ≤ rowCount t → c < columnCount →
  items (populate_rows t row_idx rows) !! (r, c)
  = if decide (row_idx ≤ r)
    then from_option (λ mon, display mon c) (items t !! (r, c))
           (rows !! (r - row_idx))
    else items t !! (r, c).
Proof.
  revert t row_idx. induction rows as [|mon rows IH]; intros t row_idx Hlen Hc.
  { simpl. by destruct (decide _). }
  simpl in *. rewrite IH by (rewrite ?populate_row_rowCount; lia).
  rewrite populate_row_lookup by lia.
  destruct (decide (S row_idx ≤ r)) as [Hr|Hr].
  - rewrite decide_False, decide_True by lia.
    replace (r - row_idx) with (S (r - S row_idx)) by lia. done.
  - destruct (decide (r = row_idx)) as [->|Hne].
    + rewrite decide_True by lia. by rewrite Nat.sub_diag.
    + by rewrite decide_False by lia.
Qed.

Lemma populate_table_lookup t (team : DataFrame) r c :
  c < columnCount →
  items (populate_table t team) !! (r, c)
  = team !! r ≫= λ p, display p.2 c.
Proof.
  intros Hc. unfold populate_table.
  rewrite populate_rows_lookup by (simpl; rewrite ?length_fmap; lia).
  rewrite decide_True by lia. rewrite Nat.sub_0_r, list_lookup_fmap.
  destruct (team !! r) as [[i mon]|] eqn:Hr; simpl; [done|].
  apply lookup_ge_None in Hr. apply map_lookup_filter_None_2.
  right. intros text _. simpl. lia.
Qed.

End table.

(** X15 — After [_populate_table] the table has one row for each entity of
    the team, in team order, showing its name, its two types (nan for a
    missing second type) and its total in decimal; whatever the table held
    before, nothing else is left in its four columns. *)
Theorem X15_populate_table (t : PokeUi.Table) (team : DataFrame) :
  PokeUi.rowCount (PokeUi.populate_table t team) = length team ∧
  ∀ r c, c < PokeUi.columnCount →
    PokeUi.items (PokeUi.populate_table t team) !! (r, c)
    = team !! r ≫= λ p, display p.2 c.
Proof.
  split; [|intros r c; apply populate_table_lookup].
  unfold PokeUi.populate_table. by rewrite populate_rows_rowCount.
Qed.


(** ** The two programs *)

(** The entities of a team are rows of the pool. *)
Lemma ui_team_rows_of_pool (pool : list Row) (k type_bonus : Z)
    (team : DataFrame) (x : Row) :
  PokeUi.greedy_team (reset_index pool) k type_bonus = Return team →
  x ∈ team.*2 → x ∈ pool.
Proof.
  intros Hteam Hx.
  destruct (ui_greedy_team_inv pool k type_bonus team Hteam)
    as (c & _ & _ & _ & _ & -> & _).
  apply list_elem_of_fmap in Hx as ([i y] & -> & Hy).
  apply elem_of_select_rows in Hy as [_ Hy].
  by apply list_elem_of_lookup_2 in Hy.
Qed.

Lemma load_data_kept (csv : DataFrame) (max_gen : Z)
    (allow_mega allow_legendary : bool) (x : Row) :
  x ∈ filter (keep max_gen allow_mega allow_legendary) csv.*2 →
  x ∈ csv.*2 ∧ kept max_gen allow_mega allow_legendary x.
Proof. rewrite list_elem_of_filter, keep_kept. tauto. Qed.

Lemma bonus_fits_le (type_bonus : Z) (m n : nat) :
  m ≤ n → bonus_fits type_bonus n → bonus_fits type_bonus m.
Proof. unfold bonus_fits. intros Hm. apply in_int64_mul_le. lia. Qed.

Lemma length_load_data_le (csv : DataFrame) (max_gen : Z)
    (allow_mega allow_legendary : bool) :
  length (Poke.load_data csv max_gen allow_mega allow_legendary)
  ≤ length csv.
Proof.
  rewrite load_data_rows, length_reset_index.
  etrans; [apply length_filter|]. by rewrite length_fmap.
Qed.

(** The bonus spin box of [_build_ui] ranges over 0 to 100: within it the
    bonus term is far from the ends of int64 for any file of at most 2^50
    rows. *)
Lemma spin_bonus_fits (type_bonus : Z) (n : nat) :
  (0 ≤ type_bonus ≤ 100)%Z → (Z.of_nat n ≤ 2 ^ 50)%Z →
  bonus_fits type_bonus n.
Proof.
  intros Hb Hn. unfold bonus_fits, in_int64.
  assert (0 ≤ type_bonus * Z.of_nat (2 * n) ≤ 100 * Z.of_nat (2 * n))%Z.
  { split; [apply Z.mul_nonneg_nonneg; lia|].
    apply Z.mul_le_mono_nonneg_r; lia. }
  lia.
Qed.

(** A team returned within the range of the bonus has a score. *)
Lemma ui_team_score_returns (pool : list Row) (k type_bonus : Z)
    (team : DataFrame) :
  bonus_fits type_bonus (length pool) →
  PokeUi.greedy_team (reset_index pool) k type_bonus = Return team →
  Poke.team_score team type_bonus
  = Return (wrap64 (spec_score team type_bonus)).
Proof.
  intros Hb Hteam. apply (team_score_returns _ _ (length pool) Hb).
  rewrite (ui_greedy_team_returned_length pool k type_bonus team Hteam). lia.
Qed.

(** X13 — The script of [poke.py], with the bonus for two categories of
    every row read within int64.  When fewer rows pass the filters than the
    team size asks for, it ends in a [ValueError] and prints nothing.  On a
    file of a header alone, without --allow-legendary and with a team size
    below 1, it ends in a [KeyError]: the frame has lost its columns.
    Otherwise it prints a team of exactly the team size (none for a size
    below 1), made of rows read that pass the filters, with the score of
    that team. *)
Theorem X13_main (csv : DataFrame) (a : Poke.args) :
  let df := Poke.load_data csv Poke.MAX_GENERATION
              (Poke.allow_mega a) (Poke.allow_legendary a) in
  bonus_fits (Poke.type_bonus a) (length csv) →
  ((Z.of_nat (length df) < Poke.team_size a)%Z →
   Poke.main csv a = Raise ValueError) ∧
  (csv = [] → Poke.allow_legendary a = false →
   (Poke.team_size a ≤ 0)%Z →
   Poke.main csv a = Raise KeyError) ∧
  (csv ≠ [] ∨ Poke.allow_legendary a = true →
   (Poke.team_size a ≤ Z.of_nat (length df))%Z →
   ∃ team score,
     Poke.main csv a = Return (score, team) ∧
     Poke.team_score team (Poke.type_bonus a) = Return score ∧
     Z.of_nat (length team) = (0 `max` Poke.team_size a)%Z ∧
     ∀ x, x ∈ team.*2 →
       x ∈ csv.*2 ∧
       kept Poke.MAX_GENERATION (Poke.allow_mega a) (Poke.allow_legendary a) x).
Proof.
  cbv zeta. intros Hcsv.
  pose proof (bonus_fits_le _ _ _
                (length_load_data_le csv Poke.MAX_GENERATION
                   (Poke.allow_mega a) (Poke.allow_legendary a)) Hcsv) as Hb.
  unfold Poke.main. revert Hb.
  rewrite load_data_rows, length_reset_index.
  set (rows := filter _ csv.*2). intros Hb. split_and!.
  - intros Hk.
    by rewrite (poke_greedy_team_raise rows _ (Poke.type_bonus a) Hk Hb).
  - intros -> Hal Hk. subst rows. rewrite Hal.
    by destruct (Poke.team_size a).
  - intros Hcols Hk.
    rewrite (poke_greedy_team_eq rows _ (Poke.type_bonus a) Hk).
    destruct (ui_greedy_team_run rows (Poke.team_size a) (Poke.type_bonus a) Hb)
      as (team & HU).
    pose proof (ui_greedy_team_returned_length rows _ _ team HU) as Hlen.
    pose proof (ui_team_score_returns rows _ _ team Hb HU) as Hs.
    exists team, (wrap64 (spec_score team (Poke.type_bonus a))).
    rewrite HU. simpl.
    assert (loses_columns csv (Poke.allow_legendary a) = false) as ->.
    { destruct Hcols as [Hne| ->]; destruct csv; done. }
    rewrite Hs. split_and!; [done|done|lia|].
    intros x Hx. apply load_data_kept.
    by apply (ui_team_rows_of_pool rows _ _ team x HU).
Qed.

Lemma X13_main_witness :
  let a := Poke.mkArgs false false 20 2 in
  let df := Poke.load_data (reset_index [A; B; C]) Poke.MAX_GENERATION
              (Poke.allow_mega a) (Poke.allow_legendary a) in
  ((Z.of_nat (length df) < Poke.team_size a)%Z →
   Poke.main (reset_index [A; B; C]) a = Raise ValueError) ∧
  (reset_index [A; B; C] = [] → Poke.allow_legendary a = false →
   (Poke.team_size a ≤ 0)%Z →
   Poke.main (reset_index [A; B; C]) a = Raise KeyError) ∧
  (reset_index [A; B; C] ≠ [] ∨ Poke.allow_legendary a = true →
   (Poke.team_size a ≤ Z.of_nat (length df))%Z →
   ∃ team score,
     Poke.main (reset_index [A; B; C]) a = Return (score, team) ∧
     Poke.team_score team (Poke.type_bonus a) = Return score ∧
     Z.of_nat (length team) = (0 `max` Poke.team_size a)%Z ∧
     ∀ x, x ∈ team.*2 →
       x ∈ (reset_index [A; B; C]).*2 ∧
       kept Poke.MAX_GENERATION (Poke.allow_mega a) (Poke.allow_legendary a) x).
Proof.
  apply (X13_main (reset_index [A; B; C]) (Poke.mkArgs false false 20 2)).
  by vm_compute.
Defined.

(** The script on the files of the scenario and of a header alone. *)
Example main_scenario :
  Poke.main (reset_index [A; B; C]) (Poke.mkArgs false false 20 2)
  = Return (740%Z, [(2, C); (0, A)]) ∧
  Poke.main (reset_index [A; B; C]) (Poke.mkArgs false false 20 4)
  = Raise ValueError ∧
  Poke.main [] (Poke.mkArgs false false 20 0) = Raise KeyError ∧
  Poke.main [] (Poke.mkArgs false true 20 0) = Return (0%Z, []) ∧
  Poke.main [] (Poke.mkArgs false false 20 6) = Raise ValueError.
Proof. by vm_compute. Qed.

(** Within the range of the bonus [_run_optimizer] returns. *)
Lemma run_optimizer_returns (w : PokeUi.window) (c : PokeUi.controls)
    (csv_exists : bool) (read : string + DataFrame) :
  (∀ csv, read = inr csv → bonus_fits (PokeUi.spin_bonus c) (length csv)) →
  ∃ x, PokeUi.run_optimizer w c csv_exists read = Return x.
Proof.
  intros Hfits. unfold PokeUi.run_optimizer.
  destruct csv_exists; simpl; [|by eexists].
  destruct read as [exc|csv]; [by eexists|].
  pose proof (bonus_fits_le _ _ _
                (length_load_data_le csv (PokeUi.combo_gen c)
                   (PokeUi.chk_mega c) (PokeUi.chk_legendary c))
                (Hfits csv eq_refl)) as Hb.
  revert Hb. change PokeUi.load_data with Poke.load_data.
  rewrite load_data_rows, length_reset_index.
  set (rows := filter _ csv.*2). intros Hb.
  destruct (PokeUi.empty (reset_index rows)); [by eexists|].
  destruct (ui_greedy_team_run rows (PokeUi.spin_team c) (PokeUi.spin_bonus c)
              Hb) as (team & Hteam).
  rewrite Hteam. simpl. change PokeUi.team_score with Poke.team_score.
  rewrite (ui_team_score_returns rows _ _ team Hb Hteam). by eexists.
Qed.

(** X14 — [_run_optimizer] ends in no exception but the scorer's
    [OverflowError], and not in that one when the bonus for two categories
    of every row read is within int64 (as it is for every value of the bonus
    spin box, 0 to 100, and any file of at most 2^50 rows).  When it shows a
    message box the table and the score label are left as they were.
    Otherwise the file was read, some row passed the filters, and it shows
    a team of min(team size, rows passing) entities, all of them rows read
    that pass the filters, and the score of that team. *)
Theorem X14_run_optimizer (w : PokeUi.window) (c : PokeUi.controls)
    (csv_exists : bool) (read : string + DataFrame) :
  (PokeUi.run_optimizer w c csv_exists read = Raise OverflowError ∨
   ∃ w' msg,
     PokeUi.run_optimizer w c csv_exists read = Return (w', msg) ∧
     match msg with
     | Some _ => w' = w
     | None =>
         ∃ csv team score,
           csv_exists = true ∧ read = inr csv ∧
           let df := PokeUi.load_data csv (PokeUi.combo_gen c)
                       (PokeUi.chk_mega c) (PokeUi.chk_legendary c) in
           df ≠ [] ∧
           PokeUi.greedy_team df (PokeUi.spin_team c) (PokeUi.spin_bonus c)
           = Return team ∧
           length team = Z.to_nat (PokeUi.spin_team c) `min` length df ∧
           (∀ x, x ∈ team.*2 →
              x ∈ csv.*2 ∧
              kept (PokeUi.combo_gen c) (PokeUi.chk_mega c)
                (PokeUi.chk_legendary c) x) ∧
           PokeUi.team_score team (PokeUi.spin_bonus c) = Return score ∧
           w' = PokeUi.mkWindow
                  (PokeUi.populate_table (PokeUi.table w) team)
                  ("Score: " +:+ pretty score)
     end) ∧
  ((∀ csv, read = inr csv → bonus_fits (PokeUi.spin_bonus c) (length csv)) →
   PokeUi.run_optimizer w c csv_exists read ≠ Raise OverflowError).
Proof.
  split.
  2: { intros Hfits.
       destruct (run_optimizer_returns w c csv_exists read Hfits) as [x ->].
       done. }
  unfold PokeUi.run_optimizer.
  destruct csv_exists; simpl; [|right; by eexists _, _].
  destruct read as [exc|csv]; [right; by eexists _, _|].
  change PokeUi.load_data with Poke.load_data.
  rewrite load_data_rows. set (rows := filter _ csv.*2).
  destruct (PokeUi.empty (reset_index rows)) eqn:Hempty;
    [right; by eexists _, _|].
  destruct (ui_greedy_team_outcome rows (PokeUi.spin_team c)
              (PokeUi.spin_bonus c)) as [(team & Hteam)| ->]; [|by left].
  pose proof (ui_greedy_team_returned_length rows _ _ team Hteam) as Hlen.
  rewrite Hteam. simpl. change PokeUi.team_score with Poke.team_score.
  destruct (Poke.team_score team (PokeUi.spin_bonus c))
    as [score|e|] eqn:Hs; simpl.
  - right. eexists _, None. split; [done|].
    exists csv, team, score.
    cbv zeta. rewrite load_data_rows. fold rows.
    rewrite length_reset_index. split_and!; try done.
    + intros Hnil. by rewrite Hnil in Hempty.
    + intros x Hx. apply load_data_kept.
      by apply (ui_team_rows_of_pool rows _ _ team x Hteam).
  - left. by rewrite (team_score_raise _ _ e Hs).
  - by apply team_score_fuel in Hs.
Qed.

(** The run on the file of the scenario, with the widgets as [_build_ui]
    leaves them and a team size of 2. *)
Example run_optimizer_scenario :
  PokeUi.run_optimizer (PokeUi.mkWindow (PokeUi.mkTable 0 ∅) "Score: -")
    (PokeUi.mkControls 6 false false 2 20) true
    (inr (reset_index [A; B; C]))
  = Return (PokeUi.mkWindow
              (PokeUi.populate_table (PokeUi.mkTable 0 ∅) [(2, C); (0, A)])
              "Score: 740", None).
Proof. by vm_compute. Qed.

(** A bonus beyond int64, which the spin box cannot hold, would end the
    run in an [OverflowError]. *)
Example run_optimizer_overflow :
  PokeUi.run_optimizer (PokeUi.mkWindow (PokeUi.mkTable 0 ∅) "Score: -")
    (PokeUi.mkControls 6 false false 2 (2 ^ 63)) true
    (inr (reset_index [A; B; C]))
  = Raise OverflowError.
Proof. by vm_compute. Qed.

(** X16 — With the team-size spin box within the range [_build_ui] gives it,
    1 to [TEAM_SIZE_MAX], a run of [_run_optimizer] that shows no message
    box fills the table with at least one and at most six rows. *)
Theorem X16_shown_team_size (w w' : PokeUi.window) (c : PokeUi.controls)
    (csv_exists : bool) (read : string + DataFrame) :
  (1 ≤ PokeUi.spin_team c ≤ PokeUi.TEAM_SIZE_MAX)%Z →
  PokeUi.run_optimizer w c csv_exists read = Return (w', None) →
  1 ≤ PokeUi.rowCount (PokeUi.table w') ≤ 6.
Proof.
  intros Hspin. unfold PokeUi.run_optimizer, PokeUi.TEAM_SIZE_MAX in *.
  destruct csv_exists; simpl; [|done].
  destruct read as [exc|csv]; [done|].
  change PokeUi.load_data with Poke.load_data.
  rewrite load_data_rows. set (rows := filter _ csv.*2).
  destruct (PokeUi.empty (reset_index rows)) eqn:Hempty; [done|].
  destruct (PokeUi.greedy_team (reset_index rows) (PokeUi.spin_team c)
              (PokeUi.spin_bonus c)) as [team| |] eqn:Hteam; [|done..].
  pose proof (ui_greedy_team_returned_length rows _ _ team Hteam) as Hlen.
  simpl.
  destruct (PokeUi.team_score team (PokeUi.spin_bonus c)) as [score| |];
    [|done..].
  simpl. intros [= <-]. simpl.
  unfold PokeUi.populate_table. rewrite populate_rows_rowCount. simpl.
  assert (length rows ≠ 0).
  { intros Hnil. apply nil_length_inv in Hnil. by rewrite Hnil in Hempty. }
  lia.
Qed.

Lemma X16_shown_team_size_witness :
  1 ≤ PokeUi.rowCount
        (PokeUi.table
           (PokeUi.mkWindow
              (PokeUi.populate_table (PokeUi.mkTable 0 ∅) [(2, C); (0, A)])
              "Score: 740")) ≤ 6.
Proof.
  apply (X16_shown_team_size
           (PokeUi.mkWindow (PokeUi.mkTable 0 ∅) "Score: -") _
           (PokeUi.mkControls 6 false false 2 20) true
           (inr (reset_index [A; B; C]))).
  - unfold PokeUi.TEAM_SIZE_MAX. simpl. lia.
  - by vm_compute.
Defined.
